(** * clofind-frontend: the upload page's core logic

    A shallow embedding of [src/app/upload/page.tsx]:
    - the coordinate mapper ([toPixelCrop], [pixelToPercentCropWithSize]),
    - the search client ([runSearchByUpload]) with its endpoint fallback,
    - the result pipeline ([dedupedResults], [sortedResults],
      [normalizeBucket], [filteredResults], [visibleResults], [canLoadMore]).

    Conventions of the embedding.
    - A JavaScript [number] that carries a coordinate, a dimension or a
      score is an exact rational ([Q]).  [NaN], the infinities and the
      binary rounding of IEEE doubles are outside this model, except where
      the pipeline itself meets them: a price is a [JsonNumber], finite or
      one of the infinities that [JSON.parse] gives for a literal beyond
      the range of doubles, and the values of the sort comparators and of
      the price bounds live in [xnum], which also has [NaN].
    - [null] / [undefined] is [None].
    - A string is a [string] of bytes (UTF-8), so that [===] on strings is
      Leibniz equality. *)

From Stdlib Require Import ZArith QArith Qround Qabs Qminmax Lia Lqa.
From Stdlib Require Import Ascii String DecimalString.
From stdpp Require Import base list sorting strings gmap.

(** ** 1. CoordinateMapper *)

Module CoordinateMapper.
Local Open Scope Q_scope.

(** [Math.round]: the nearest integer, ties towards plus infinity. *)
Definition Math_round (v : Q) : Q := inject_Z (Qfloor (v + (1 # 2))).

(** [Math.max] on two numbers. *)
Definition Math_max (a b : Q) : Q := Qmax a b.

(** [a || b] on numbers: [a] when it is truthy (not zero), else [b]. *)
Definition js_or (a b : Q) : Q := if Qeq_bool a 0 then b else a.

(** [v ?? 0]. *)
Definition nullish0 (v : option Q) : Q :=
  match v with Some q => q | None => 0 end.

(** The [unit] field of react-image-crop's [Crop]. *)
Inductive CropUnit : Type := UnitPx | UnitPct.

(** [Crop]: the source reads every coordinate through [?? 0], so each one
    may be absent. *)
Record Crop : Type := mkCrop {
  crop_unit : CropUnit;
  crop_x : option Q;
  crop_y : option Q;
  crop_width : option Q;
  crop_height : option Q
}.

(** [PixelCrop]: its unit is always ['px']. *)
Record PixelCrop : Type := mkPixelCrop {
  px_x : Q;
  px_y : Q;
  px_width : Q;
  px_height : Q
}.

(** What [toPixelCrop] reads of an [HTMLImageElement]: the natural size,
    the [width]/[height] attributes and the size of
    [getBoundingClientRect()]. *)
Record HTMLImageElement : Type := mkImg {
  naturalWidth : Q;
  naturalHeight : Q;
  img_width : Q;
  img_height : Q;
  rect_width : Q;
  rect_height : Q
}.

(** [img.width || img.getBoundingClientRect().width || naturalW] *)
Definition renderedW (img : HTMLImageElement) : Q :=
  js_or (js_or (img_width img) (rect_width img)) (naturalWidth img).

(** [img.height || img.getBoundingClientRect().height || naturalH] *)
Definition renderedH (img : HTMLImageElement) : Q :=
  js_or (js_or (img_height img) (rect_height img)) (naturalHeight img).

Definition isPct (c : Crop) : bool :=
  match crop_unit c with UnitPct => true | UnitPx => false end.

Definition toPixelCrop (c : Crop) (img : HTMLImageElement) : PixelCrop :=
  let naturalW := naturalWidth img in
  let naturalH := naturalHeight img in
  let scaleX := naturalW / renderedW img in
  let scaleY := naturalH / renderedH img in
  let rx := nullish0 (crop_x c) in
  let ry := nullish0 (crop_y c) in
  let rw := nullish0 (crop_width c) in
  let rh := nullish0 (crop_height c) in
  let x := Math_round (if isPct c then (rx / 100) * naturalW else rx * scaleX) in
  let y := Math_round (if isPct c then (ry / 100) * naturalH else ry * scaleY) in
  let w := Math_round (if isPct c then (rw / 100) * naturalW else rw * scaleX) in
  let h := Math_round (if isPct c then (rh / 100) * naturalH else rh * scaleY) in
  {| px_x := Math_max 0 x; px_y := Math_max 0 y;
     px_width := Math_max 1 w; px_height := Math_max 1 h |}.

Definition pixelToPercentCropWithSize (px : PixelCrop) (naturalW naturalH : Q)
  : Crop :=
  {| crop_unit := UnitPct;
     crop_x := Some ((px_x px / naturalW) * 100);
     crop_y := Some ((px_y px / naturalH) * 100);
     crop_width := Some ((px_width px / naturalW) * 100);
     crop_height := Some ((px_height px / naturalH) * 100) |}.

(** The default selection the page installs on first load. *)
Definition defaultCrop : Crop :=
  mkCrop UnitPct (Some 12) (Some 12) (Some 76) (Some 76).

(** [|a - b| <= tol], for a recovered coordinate that may be absent. *)
Definition within (tol : Q) (recovered : option Q) (original : Q) : Prop :=
  match recovered with
  | Some r => Qabs (r - original) <= tol
  | None => False
  end.

(** The share of a natural dimension [natural], in percent, that [n] natural
    pixels span. *)
Definition pct_of_pixels (n natural : Q) : Q := n * 100 / natural.

(** A percentage selection with all four coordinates present. *)
Definition pctCrop (sx sy sw sh : Q) : Crop :=
  mkCrop UnitPct (Some sx) (Some sy) (Some sw) (Some sh).

(** A recovered coordinate that is present and equal to [v]. *)
Definition exactly (v : Q) (recovered : option Q) : Prop :=
  match recovered with
  | Some r => r == v
  | None => False
  end.

(** The round-trip law with the tolerance of rounding alone: the selection
    recovered from the pixel rectangle of the percentage selection
    [(sx, sy, sw, sh)] has each of its four coordinates within half a
    natural pixel of the original, the largest error that rounding to whole
    natural pixels introduces. *)
Definition recoversWithinRounding (sx sy sw sh : Q) (img : HTMLImageElement)
  : Prop :=
  let W := naturalWidth img in
  let H := naturalHeight img in
  let r := pixelToPercentCropWithSize
             (toPixelCrop (pctCrop sx sy sw sh) img) W H in
  within (pct_of_pixels (1 # 2) W) (crop_x r) sx /\
  within (pct_of_pixels (1 # 2) H) (crop_y r) sy /\
  within (pct_of_pixels (1 # 2) W) (crop_width r) sw /\
  within (pct_of_pixels (1 # 2) H) (crop_height r) sh.

(** The round-trip law that holds: [r] is the selection recovered from the
    pixel rectangle of the percentage selection [(sx, sy, sw, sh)].  The
    origin is recovered within half a natural pixel.  An extent that spans
    at least half a natural pixel is recovered within half a natural pixel
    too; a smaller one is clamped to one pixel by [toPixelCrop] and comes
    back as exactly one natural pixel, so every extent is recovered within
    one natural pixel. *)
Definition recovers (sx sy sw sh : Q) (img : HTMLImageElement) : Prop :=
  let W := naturalWidth img in
  let H := naturalHeight img in
  let r := pixelToPercentCropWithSize
             (toPixelCrop (pctCrop sx sy sw sh) img) W H in
  crop_unit r = UnitPct /\
  within (pct_of_pixels (1 # 2) W) (crop_x r) sx /\
  within (pct_of_pixels (1 # 2) H) (crop_y r) sy /\
  within (pct_of_pixels 1 W) (crop_width r) sw /\
  within (pct_of_pixels 1 H) (crop_height r) sh /\
  (1 # 2 <= (sw / 100) * W ->
   within (pct_of_pixels (1 # 2) W) (crop_width r) sw) /\
  (1 # 2 <= (sh / 100) * H ->
   within (pct_of_pixels (1 # 2) H) (crop_height r) sh) /\
  ((sw / 100) * W < 1 # 2 -> exactly (pct_of_pixels 1 W) (crop_width r)) /\
  ((sh / 100) * H < 1 # 2 -> exactly (pct_of_pixels 1 H) (crop_height r)).

(** A whole number. *)
Definition isWhole (q : Q) : Prop := exists z : Z, q = inject_Z z.

(** A pixel rectangle with whole coordinates. *)
Definition wholeRect (x y w h : Z) : PixelCrop :=
  mkPixelCrop (inject_Z x) (inject_Z y) (inject_Z w) (inject_Z h).

(** A selection in rendered pixels with all four coordinates present. *)
Definition pxCrop (rx ry rw rh : Q) : Crop :=
  mkCrop UnitPx (Some rx) (Some ry) (Some rw) (Some rh).

(** *** getCroppedBlob: the canvas and the [drawImage] call *)

(** The size given to the canvas:
    [canvas.width = Math.max(1, Math.round(crop.width))], and the same for
    the height. *)
Record Canvas : Type := mkCanvas {
  canvas_width : Q;
  canvas_height : Q
}.

Definition canvasFor (crop : PixelCrop) : Canvas :=
  {| canvas_width := Math_max 1 (Math_round (px_width crop));
     canvas_height := Math_max 1 (Math_round (px_height crop)) |}.

(** [ctx.drawImage(img, sx, sy, sw, sh, dx, dy, dw, dh)] *)
Record DrawImage : Type := mkDrawImage {
  draw_sx : Q; draw_sy : Q; draw_sw : Q; draw_sh : Q;
  draw_dx : Q; draw_dy : Q; draw_dw : Q; draw_dh : Q
}.

Definition drawImageFor (crop : PixelCrop) : DrawImage :=
  let canvas := canvasFor crop in
  {| draw_sx := px_x crop; draw_sy := px_y crop;
     draw_sw := px_width crop; draw_sh := px_height crop;
     draw_dx := 0; draw_dy := 0;
     draw_dw := canvas_width canvas; draw_dh := canvas_height canvas |}.

(** What the browser does with the canvas: whether [getContext('2d')]
    gives a context, and what [toBlob] hands to its callback for a drawing
    ([None] for [null]). *)
Record CanvasEnv : Type := mkCanvasEnv {
  hasContext2d : bool;
  toBlob : HTMLImageElement -> Canvas -> DrawImage -> option string
}.

(** The promise of [getCroppedBlob]: rejected with
    ['Canvas context not available'], or resolved with what [toBlob] gave. *)
Inductive BlobOutcome : Type :=
| NoCanvasContext
| BlobResolved (b : option string).

Definition getCroppedBlob (env : CanvasEnv) (img : HTMLImageElement)
    (crop : PixelCrop) : BlobOutcome :=
  let canvas := canvasFor crop in
  if negb (hasContext2d env) then NoCanvasContext
  else BlobResolved (toBlob env img canvas (drawImageFor crop)).

End CoordinateMapper.

(** ** 2. Data model of the search results *)

Module DataModel.

(** A number of a parsed JSON body: finite, or an infinity ([JSON.parse]
    reads [1e999] as [Infinity] and [-1e999] as [-Infinity]); never
    [NaN]. *)
Inductive JsonNumber : Type :=
| Finite (q : Q)
| PlusInfinity
| MinusInfinity.

(** [a <= b] on these numbers. *)
Definition numLe (a b : JsonNumber) : Prop :=
  match a, b with
  | MinusInfinity, _ => True
  | _, PlusInfinity => True
  | Finite x, Finite y => (x <= y)%Q
  | _, _ => False
  end.

(** [Hit].  The type declares [score], [label] and [price] as always
    present, but the pipeline reads them through [??] and an optional
    parameter, so they may be absent here too. *)
Record Hit : Type := mkHit {
  product_id : Z;
  score : option Q;
  label : option string;
  title : option string;
  price : option JsonNumber;
  currency : option string;
  merchant : option string;
  deeplink : option string;
  image_url : option string
}.

(** [SearchResponse = { results?: Hit[] }] *)
Record SearchResponse : Type := mkSearchResponse {
  results : option (list Hit)
}.

(** [String(n)] / [`${n}`] for an integer. *)
Definition String_of_Z (n : Z) : string := NilZero.string_of_int (Z.to_int n).

End DataModel.

(** ** 3. SearchClient *)

Module SearchClient.
Import DataModel.
Local Open Scope string_scope.
Local Open Scope Z_scope.

(** The two configuration variables, [undefined] when not set. *)
Record ProcessEnv : Type := mkEnv {
  NEXT_PUBLIC_API_BASE : option string;
  NEXT_PUBLIC_BACKEND_URL : option string
}.

(** The multipart form: fields [file] and [topk]. *)
Record FormData : Type := mkForm {
  form_file : string;
  form_topk : string
}.

(** [fetch(url, { method: 'POST', body: form, signal })] *)
Record Request : Type := mkRequest {
  req_url : string;
  req_body : FormData
}.

(** What the client reads of a [Response]: [text] and [json] are the
    results of [r.text()] and [r.json()], [None] when the promise rejects. *)
Record Response : Type := mkResponse {
  status : Z;
  statusText : string;
  text : option string;
  json : option SearchResponse
}.

(** [r.ok]: the status is in the range 200-299. *)
Definition ok (r : Response) : bool := (200 <=? status r) && (status r <=? 299).

(** A [fetch] promise either rejects (transport failure, or the abort of the
    60 second timer) or resolves with a response. *)
Inductive FetchOutcome : Type :=
| Rejected
| Resolved (r : Response).

(** The errors [runSearchByUpload] throws, by the class the spec gives
    them; [message] is the text the source puts in the [Error]. *)
Inductive SearchError : Type :=
| ConfigError
| NetworkError
| ServiceUnavailable
| HttpError (st : Z) (reason body : string)
| NotFoundError (lastText : string)
| BodyParseError.

Definition message (e : SearchError) : string :=
  match e with
  | ConfigError =>
      "Konfiguration fehlt: NEXT_PUBLIC_API_BASE oder NEXT_PUBLIC_BACKEND_URL nicht gesetzt."
  | NetworkError =>
      "Netzwerkfehler – bitte überprüfe deine Verbindung und versuche es erneut."
  | ServiceUnavailable =>
      "Bildsuche kurz nicht verfügbar – bitte später erneut versuchen."
  | HttpError st reason body =>
      String_of_Z st +:+ " " +:+ reason +:+ " – " +:+ body
  | NotFoundError lastText =>
      "Kein Upload-Endpoint gefunden (404). Letzte Antwort: " +:+ lastText
  | BodyParseError => "SyntaxError"
  end.

Inductive Result : Type :=
| Ok (data : SearchResponse)
| Err (e : SearchError).

(** A run of the client: the requests sent, in order, and how it ended. *)
Record Run : Type := mkRun {
  contacted : list Request;
  outcome : Result
}.

(** [a ?? b] *)
Definition nullish {A : Type} (a b : option A) : option A :=
  match a with Some v => Some v | None => b end.

(** [!base] for a string that may be undefined. *)
Definition falsy (base : option string) : bool :=
  match base with
  | None => true
  | Some s => if decide (s = "") then true else false
  end.

(** [await r.text().catch(() => '')] *)
Definition textOrEmpty (r : Response) : string :=
  match text r with Some t => t | None => "" end.

(** The ordered candidate paths. *)
Definition paths : list string := ["/search/by-upload"; "/search/image"].

Definition request (base p : string) (form : FormData) : Request :=
  {| req_url := base +:+ p; req_body := form |}.

Section Loop.
(** The network, as the client sees it. *)
Variable fetch : Request -> FetchOutcome.
Variable base : string.
Variable form : FormData.

(** The [for (const p of paths)] loop, with [lastText] as loop state, and
    the [throw] after it. *)
Fixpoint forPaths (ps : list string) (lastText : string) : Run :=
  match ps with
  | [] => mkRun [] (Err (NotFoundError lastText))
  | p :: ps' =>
      let q := request base p form in
      match fetch q with
      | Rejected => mkRun [q] (Err NetworkError)
      | Resolved r =>
          if ok r then
            mkRun [q]
              (match json r with Some d => Ok d | None => Err BodyParseError end)
          else
            let lastText := textOrEmpty r in
            if status r =? 503 then mkRun [q] (Err ServiceUnavailable)
            else if negb (status r =? 404) then
              mkRun [q] (Err (HttpError (status r) (statusText r) lastText))
            else
              let rest := forPaths ps' lastText in
              mkRun (q :: contacted rest) (outcome rest)
      end
  end.

(** How the answer to the last request decides the outcome. *)
Definition decides (q : Request) (all : bool) (res : Result) : Prop :=
  match fetch q with
  | Rejected => res = Err NetworkError
  | Resolved r =>
      if ok r then
        res = match json r with Some d => Ok d | None => Err BodyParseError end
      else if status r =? 503 then res = Err ServiceUnavailable
      else if negb (status r =? 404) then
        res = Err (HttpError (status r) (statusText r) (textOrEmpty r))
      else res = Err (NotFoundError (textOrEmpty r)) /\ all = true
  end.

(** The five ways a candidate can answer. *)
Variant Answer (p : string) : Type :=
| AnsRejected (E : fetch (request base p form) = Rejected)
| AnsOk r (E : fetch (request base p form) = Resolved r) (Hok : ok r = true)
| Ans503 r (E : fetch (request base p form) = Resolved r) (Hs : status r = 503)
| Ans404 r (E : fetch (request base p form) = Resolved r) (Hs : status r = 404)
| AnsOther r (E : fetch (request base p form) = Resolved r) (Hok : ok r = false)
    (H503 : status r <> 503) (H404 : status r <> 404).
End Loop.

(** [process.env.NEXT_PUBLIC_API_BASE ?? process.env.NEXT_PUBLIC_BACKEND_URL] *)
Definition resolveBase (env : ProcessEnv) : option string :=
  nullish (NEXT_PUBLIC_API_BASE env) (NEXT_PUBLIC_BACKEND_URL env).

(** [form.set('file', blobOrFile); form.set('topk', String(40))] *)
Definition buildForm (blobOrFile : string) : FormData :=
  {| form_file := blobOrFile; form_topk := String_of_Z 40 |}.

Definition runSearchByUpload (env : ProcessEnv) (fetch : Request -> FetchOutcome)
    (blobOrFile : string) : Run :=
  let form := buildForm blobOrFile in
  let base := resolveBase env in
  if falsy base then mkRun [] (Err ConfigError)
  else
    match base with
    | Some b => forPaths fetch b form paths ""
    | None => mkRun [] (Err ConfigError)
    end.

(** [Array.isArray(data.results) ? data.results : []] *)
Definition hitsOf (data : SearchResponse) : list Hit :=
  match results data with Some hs => hs | None => [] end.

(** The resolution as the spec words it, to compare [resolveBase] with: the
    two variables in priority order, the first non-empty value. *)
Definition nonEmpty (v : option string) : option string :=
  match v with
  | Some s => if decide (s = "") then None else Some s
  | None => None
  end.

Definition firstNonEmpty (env : ProcessEnv) : option string :=
  match nonEmpty (NEXT_PUBLIC_API_BASE env) with
  | Some s => Some s
  | None => nonEmpty (NEXT_PUBLIC_BACKEND_URL env)
  end.

(** A backend for the examples: it answers the first candidate path of
    [base] with [first] and any other request with [second]. *)
Definition backend (base : string) (first second : FetchOutcome)
  : Request -> FetchOutcome :=
  fun q =>
    if decide (req_url q = base +:+ "/search/by-upload") then first else second.

Definition respond (st : Z) (reason body : string) (d : option SearchResponse)
  : FetchOutcome :=
  Resolved (mkResponse st reason (Some body) d).

Definition sampleHit : Hit :=
  mkHit 7 (Some (9 # 10)) (Some "Exact") None None None None None None.

Definition sampleEnv : ProcessEnv := mkEnv None (Some "http://api").

End SearchClient.

(** ** 4. ResultPipeline *)

Module ResultPipeline.
Import DataModel.
Local Open Scope string_scope.

(** *** Dedupe *)

(** [v ?? ''] *)
Definition orEmpty (v : option string) : string :=
  match v with Some s => s | None => "" end.

(** [`${h.product_id}-${h.deeplink ?? ''}-${h.image_url ?? ''}`] *)
Definition idOf (h : Hit) : string :=
  String_of_Z (product_id h) +:+ "-" +:+ orEmpty (deeplink h)
    +:+ "-" +:+ orEmpty (image_url h).

(** The triple the key is built from. *)
Definition tripleOf (h : Hit) : Z * string * string :=
  (product_id h, orEmpty (deeplink h), orEmpty (image_url h)).

(** [results.filter(...)] with the [seen] set as state. *)
Fixpoint dedupeFrom (seen : gset string) (hs : list Hit) : list Hit :=
  match hs with
  | [] => []
  | h :: rest =>
      let id := idOf h in
      if decide (id ∈ seen) then dedupeFrom seen rest
      else h :: dedupeFrom ({[id]} ∪ seen) rest
  end.

Definition dedupedResults (results : list Hit) : list Hit :=
  dedupeFrom ∅ results.

(** *** Sort *)

(** The values of the comparators: a number, an infinity, or [NaN]
    (from [Infinity - Infinity]). *)
Inductive xnum : Type :=
| Fin (q : Q)
| PosInf
| NegInf
| NaN.

(** Subtraction of JavaScript numbers. *)
Definition xsub (a b : xnum) : xnum :=
  match a, b with
  | NaN, _ | _, NaN => NaN
  | Fin x, Fin y => Fin (x - y)
  | Fin _, PosInf => NegInf
  | Fin _, NegInf => PosInf
  | PosInf, PosInf => NaN
  | PosInf, _ => PosInf
  | NegInf, NegInf => NaN
  | NegInf, _ => NegInf
  end.

(** How [Array.prototype.sort] reads a comparator value [v]: negative, zero
    or positive, with [NaN] read as zero. *)
Definition signOf (v : xnum) : comparison :=
  match v with
  | Fin q => (q ?= 0)%Q
  | PosInf => Gt
  | NegInf => Lt
  | NaN => Eq
  end.

Section ArraySort.
Context {A : Type}.
Variable comparefn : A -> A -> xnum.

(** [x] goes behind every element it compares greater than, and in front of
    the first element it does not. *)
Fixpoint insertSorted (x : A) (l : list A) : list A :=
  match l with
  | [] => [x]
  | y :: rest =>
      match signOf (comparefn x y) with
      | Gt => y :: insertSorted x rest
      | _ => x :: y :: rest
      end
  end.

(** [Array.prototype.sort]: a stable sort; elements that compare equal keep
    their input order. *)
Definition Array_sort (l : list A) : list A := foldr insertSorted [] l.
End ArraySort.

Inductive SortKey : Type :=
| relevance | priceAsc | priceDesc | scoreDesc | scoreAsc.

(** A parsed number as a JavaScript number. *)
Definition numberOf (n : JsonNumber) : xnum :=
  match n with
  | Finite q => Fin q
  | PlusInfinity => PosInf
  | MinusInfinity => NegInf
  end.

(** [h.price ?? d] *)
Definition priceOr (d : xnum) (h : Hit) : xnum :=
  match price h with Some p => numberOf p | None => d end.

(** [h.score ?? 0] *)
Definition scoreOr0 (h : Hit) : xnum :=
  match score h with Some s => Fin s | None => Fin 0 end.

Definition sortedResults (sortBy : SortKey) (dedupedResults : list Hit)
  : list Hit :=
  let arr := dedupedResults in
  match sortBy with
  | priceAsc =>
      Array_sort (fun a b => xsub (priceOr PosInf a) (priceOr PosInf b)) arr
  | priceDesc =>
      Array_sort (fun a b => xsub (priceOr NegInf b) (priceOr NegInf a)) arr
  | scoreDesc => Array_sort (fun a b => xsub (scoreOr0 b) (scoreOr0 a)) arr
  | scoreAsc => Array_sort (fun a b => xsub (scoreOr0 a) (scoreOr0 b)) arr
  | relevance => arr
  end.

(** *** Filter *)

Inductive LabelBucket : Type := Exact | SehrAehnlich | Alternative.

Definition normalizeBucket (lbl : option string) : LabelBucket :=
  if decide (lbl = Some "Exact") then Exact
  else if decide (lbl = Some "Sehr ähnlich") then SehrAehnlich
  else Alternative.

(** [Record<LabelBucket, boolean>] *)
Record LabelFilter : Type := mkLabelFilter {
  flagExact : bool;
  flagSehrAehnlich : bool;
  flagAlternative : bool
}.

(** [labelFilter[k]] *)
Definition flagOf (f : LabelFilter) (k : LabelBucket) : bool :=
  match k with
  | Exact => flagExact f
  | SehrAehnlich => flagSehrAehnlich f
  | Alternative => flagAlternative f
  end.

(** The filter inputs of the page state. *)
Record FilterState : Type := mkFilterState {
  labelFilter : LabelFilter;
  priceMin : string;
  priceMax : string;
  merchantSearch : string
}.

(** The state [handleFiles] and the clear buttons install. *)
Definition defaultLabelFilter : LabelFilter := mkLabelFilter true true true.
Definition defaultFilterState : FilterState :=
  mkFilterState defaultLabelFilter "" "" "".

(** [a <= b] on JavaScript numbers: false as soon as one side is [NaN]. *)
Definition xleb (a b : xnum) : bool :=
  match a, b with
  | NaN, _ | _, NaN => false
  | NegInf, _ => true
  | _, PosInf => true
  | Fin x, Fin y => if Qle_bool x y then true else false
  | _, _ => false
  end.

(** White space that [trim] removes, among the one-byte characters: space,
    tab, line feed, vertical tab, form feed, carriage return. *)
Definition isWhiteSpace (c : ascii) : bool :=
  let n := nat_of_ascii c in
  (n =? 32)%nat || ((9 <=? n)%nat && (n <=? 13)%nat).

(** White space of two bytes: U+00A0 (C2 A0). *)
Definition isWhiteSpace2 (a b : ascii) : bool :=
  (nat_of_ascii a =? 194)%nat && (nat_of_ascii b =? 160)%nat.

(** White space of three bytes: U+1680 (E1 9A 80), U+2000 to U+200A
    (E2 80 80 to E2 80 8A), U+2028, U+2029 (E2 80 A8, A9), U+202F (E2 80 AF),
    U+205F (E2 81 9F), U+3000 (E3 80 80) and U+FEFF (EF BB BF). *)
Definition isWhiteSpace3 (a b c : ascii) : bool :=
  let x := nat_of_ascii a in
  let y := nat_of_ascii b in
  let z := nat_of_ascii c in
  ((x =? 225) && (y =? 154) && (z =? 128))%nat
  || ((x =? 226) && (y =? 128)
      && (((128 <=? z) && (z <=? 138)) || (z =? 168) || (z =? 169)
          || (z =? 175)))%nat
  || ((x =? 226) && (y =? 129) && (z =? 159))%nat
  || ((x =? 227) && (y =? 128) && (z =? 128))%nat
  || ((x =? 239) && (y =? 187) && (z =? 191))%nat.

(** [trimStart]: white-space and line-terminator characters are dropped
    from the front, a character being one, two or three bytes of the
    string. *)
Fixpoint trimStart (s : string) : string :=
  match s with
  | String a r1 =>
      if isWhiteSpace a then trimStart r1
      else
        match r1 with
        | String b r2 =>
            if isWhiteSpace2 a b then trimStart r2
            else
              match r2 with
              | String c r3 =>
                  if isWhiteSpace3 a b c then trimStart r3 else s
              | EmptyString => s
              end
        | EmptyString => s
        end
  | EmptyString => EmptyString
  end.

(** Nothing but white space. *)
Definition isBlank (s : string) : bool :=
  match trimStart s with EmptyString => true | String _ _ => false end.

(** [trimEnd]: the string is cut where nothing but white space follows. *)
Fixpoint trimEnd (s : string) : string :=
  match s with
  | String c rest => if isBlank s then EmptyString else String c (trimEnd rest)
  | EmptyString => EmptyString
  end.

Definition trim (s : string) : string := trimEnd (trimStart s).

(** U+00A0 and U+3000, for the examples. *)
Definition nbsp : string :=
  String (ascii_of_nat 194) (String (ascii_of_nat 160) EmptyString).

Definition ideographicSpace : string :=
  String (ascii_of_nat 227)
    (String (ascii_of_nat 128) (String (ascii_of_nat 128) EmptyString)).

(** [toLowerCase] on the letters A-Z; other bytes are kept, so that the case
    of letters outside ASCII is not folded here. *)
Definition lowerChar (c : ascii) : ascii :=
  let n := nat_of_ascii c in
  if (65 <=? n)%nat && (n <=? 90)%nat then ascii_of_nat (n + 32) else c.

Fixpoint toLowerCase (s : string) : string :=
  match s with
  | String c rest => String (lowerChar c) (toLowerCase rest)
  | EmptyString => EmptyString
  end.

Fixpoint startsWith (s sub : string) : bool :=
  match sub, s with
  | EmptyString, _ => true
  | String _ _, EmptyString => false
  | String b sub', String a s' =>
      if decide (a = b) then startsWith s' sub' else false
  end.

(** [s.includes(sub)] *)
Fixpoint includes (s sub : string) : bool :=
  startsWith s sub ||
  match s with
  | String _ rest => includes rest sub
  | EmptyString => false
  end.

Section Filter.
(** [parseFloat], a function of the engine: the number a string starts
    with, [NaN] when there is none. *)
Variable parseFloat : string -> xnum.

Definition passes (st : FilterState) (r : Hit) : bool :=
  let min := if decide (priceMin st = "") then None
             else Some (parseFloat (priceMin st)) in
  let max := if decide (priceMax st = "") then None
             else Some (parseFloat (priceMax st)) in
  let merchantQ := toLowerCase (trim (merchantSearch st)) in
  let bucket := flagOf (labelFilter st) (normalizeBucket (label r)) in
  let okMin := match min with
               | None => true
               | Some m => xleb m (priceOr PosInf r)
               end in
  let okMax := match max with
               | None => true
               | Some m => xleb (priceOr NegInf r) m
               end in
  let okMerchant := if decide (merchantQ = "") then true
                    else includes (toLowerCase (orEmpty (merchant r)))
                           merchantQ in
  bucket && okMin && okMax && okMerchant.

Definition filteredResults (st : FilterState) (sortedResults : list Hit)
  : list Hit :=
  filter (fun r => passes st r = true) sortedResults.
End Filter.

(** *** Paginate *)

(** [arr.slice(start, end)]: a negative index counts from the end, and both
    are clamped to the array. *)
Definition slice {A : Type} (start end_ : Z) (l : list A) : list A :=
  let len := Z.of_nat (length l) in
  let k := if (start <? 0)%Z then Z.max (len + start) 0 else Z.min start len in
  let final := if (end_ <? 0)%Z then Z.max (len + end_) 0
               else Z.min end_ len in
  take (Z.to_nat (final - k)) (drop (Z.to_nat k) l).

Definition visibleResults (visibleCount : Z) (filteredResults : list Hit)
  : list Hit :=
  slice 0 visibleCount filteredResults.

Definition canLoadMore (visibleCount : Z) (filteredResults : list Hit) : bool :=
  (visibleCount <? Z.of_nat (length filteredResults))%Z.

(** [useState(12)] *)
Definition initialVisibleCount : Z := 12.

(** What changes [visibleCount]: the "Mehr laden" button, and the resets of
    [handleFiles], [confirmAndSearch] and [resubmitWithSameCrop]. *)
Inductive CursorEvent : Type := LoadMore | ResetCount.

Definition setVisibleCount (n : Z) (ev : CursorEvent) : Z :=
  match ev with
  | LoadMore => (n + 12)%Z
  | ResetCount => 12%Z
  end.

(** The cursor after a sequence of events, from the initial state. *)
Definition cursorAfter (evs : list CursorEvent) : Z :=
  foldl setVisibleCount initialVisibleCount evs.

(** [a] may stand in front of [b] in an array sorted by [comparefn]: [a]
    does not compare greater than [b]. *)
Definition inOrder {A : Type} (comparefn : A -> A -> xnum) (a b : A) : Prop :=
  signOf (comparefn a b) <> Gt.

(** The comparators of [sortedResults]. *)
Definition comparatorOf (sortBy : SortKey) : Hit -> Hit -> xnum :=
  match sortBy with
  | priceAsc => fun a b => xsub (priceOr PosInf a) (priceOr PosInf b)
  | priceDesc => fun a b => xsub (priceOr NegInf b) (priceOr NegInf a)
  | scoreDesc => fun a b => xsub (scoreOr0 b) (scoreOr0 a)
  | scoreAsc => fun a b => xsub (scoreOr0 a) (scoreOr0 b)
  | relevance => fun _ _ => Fin 0
  end.

(** A hit with only the fields of the key. *)
Definition keyed (id : Z) (link image : option string) : Hit :=
  mkHit id None None None None None None link image.

(** The order of the price keys that the price comparators induce. *)
Definition priceOrder (sortBy : SortKey) (a b : Hit) : bool :=
  match sortBy with
  | priceDesc => xleb (priceOr NegInf b) (priceOr NegInf a)
  | _ => xleb (priceOr PosInf a) (priceOr PosInf b)
  end.

(** A hit with only a price: a finite one, or none. *)
Definition priced (id : Z) (p : option Q) : Hit :=
  mkHit id None None None (Finite <$> p) None None None None.

(** A hit with only a price, which may be infinite. *)
Definition pricedAt (id : Z) (n : JsonNumber) : Hit :=
  mkHit id None None None (Some n) None None None None.

(** The claim on the price keys, as the spec words it: in [sorted], every
    hit with a missing price stands behind every hit that has a price. *)
Definition pricelessLast (sorted : list Hit) : Prop :=
  forall i j a b,
    sorted !! i = Some a -> sorted !! j = Some b ->
    price a = None -> price b <> None -> (j < i)%nat.

(** A price that compares equal to a missing price: the infinity that the
    comparator puts in place of a missing price, [Infinity] under
    [priceAsc] and [-Infinity] under [priceDesc]. *)
Definition tiesWithMissing (sortBy : SortKey) (n : JsonNumber) : bool :=
  match sortBy, n with
  | priceAsc, PlusInfinity => true
  | priceDesc, MinusInfinity => true
  | _, _ => false
  end.

(** A hit at the far end of a price order: its price is missing, or ties
    with a missing price. *)
Definition atMissingEnd (sortBy : SortKey) (h : Hit) : bool :=
  match price h with
  | None => true
  | Some n => tiesWithMissing sortBy n
  end.

(** What the price keys do with missing prices: the sorted sequence is a
    permutation of the input; every hit without a price stands behind every
    hit whose price does not tie with a missing one; and the hits at the
    far end (no price, or a tying price) keep the order of the input. *)
Definition pricelessAfterPriced (sortBy : SortKey) (hs : list Hit) : Prop :=
  sortedResults sortBy hs ≡ₚ hs /\
  (forall i j a b n,
     sortedResults sortBy hs !! i = Some a ->
     sortedResults sortBy hs !! j = Some b ->
     price a = None -> price b = Some n ->
     tiesWithMissing sortBy n = false -> (j < i)%nat) /\
  filter (fun h => atMissingEnd sortBy h = true) (sortedResults sortBy hs)
  = filter (fun h => atMissingEnd sortBy h = true) hs.

(** *** The filter badges and their clear buttons *)

(** [setLabelFilter((prev) => ({ ...prev, [k]: checked }))] *)
Definition setFlag (f : LabelFilter) (k : LabelBucket) (checked : bool)
  : LabelFilter :=
  match k with
  | Exact => mkLabelFilter checked (flagSehrAehnlich f) (flagAlternative f)
  | SehrAehnlich => mkLabelFilter (flagExact f) checked (flagAlternative f)
  | Alternative => mkLabelFilter (flagExact f) (flagSehrAehnlich f) checked
  end.

(** The key of a bucket in the [labelFilter] object. *)
Definition bucketName (k : LabelBucket) : string :=
  match k with
  | Exact => "Exact"
  | SehrAehnlich => "Sehr ähnlich"
  | Alternative => "Alternative"
  end.

(** [Object.entries(labelFilter)], in the order of the keys. *)
Definition entries (f : LabelFilter) : list (string * bool) :=
  [(bucketName Exact, flagExact f);
   (bucketName SehrAehnlich, flagSehrAehnlich f);
   (bucketName Alternative, flagAlternative f)].

(** [Object.values(labelFilter).every(Boolean)] *)
Definition allLabelsSelected (f : LabelFilter) : bool :=
  forallb snd (entries f).

(** [arr.join(sep)] *)
Fixpoint join (sep : string) (l : list string) : string :=
  match l with
  | [] => ""
  | [x] => x
  | x :: rest => x +:+ sep +:+ join sep rest
  end.

(** [Object.entries(labelFilter).filter(([, v]) => v).map(([k]) => k).join(', ')] *)
Definition selectedLabels (f : LabelFilter) : string :=
  join ", " (map fst (List.filter snd (entries f))).

(** [a || b] on strings: [a] unless it is empty. *)
Definition strOr (a b : string) : string := if decide (a = "") then b else a.

(** A badge is a string or [null]; it is truthy when it is a non-empty
    string. *)
Definition truthyBadge (b : option string) : bool :=
  match b with
  | Some s => if decide (s = "") then false else true
  | None => false
  end.

(** [a || b] on badges. *)
Definition badgeOr (a b : option string) : option string :=
  if truthyBadge a then a else b.

Definition activeBadgeLabels (st : FilterState) : option string :=
  if negb (allLabelsSelected (labelFilter st))
  then Some ("Ähnlichkeit: " +:+ selectedLabels (labelFilter st))
  else None.

Definition activeBadgePrice (st : FilterState) : option string :=
  if negb (bool_decide (priceMin st = "")) || negb (bool_decide (priceMax st = ""))
  then Some ("Preis: " +:+ strOr (priceMin st) "0" +:+ "–"
             +:+ strOr (priceMax st) "∞")
  else None.

Definition activeBadgeMerchant (st : FilterState) : option string :=
  if negb (bool_decide (trim (merchantSearch st) = ""))
  then Some ("Händler: " +:+ trim (merchantSearch st))
  else None.

(** [Boolean(activeBadgeLabels || activeBadgePrice || activeBadgeMerchant)] *)
Definition anyActiveBadges (st : FilterState) : bool :=
  truthyBadge
    (badgeOr (badgeOr (activeBadgeLabels st) (activeBadgePrice st))
       (activeBadgeMerchant st)).

Definition clearLabels (st : FilterState) : FilterState :=
  mkFilterState defaultLabelFilter (priceMin st) (priceMax st)
    (merchantSearch st).

Definition clearPrice (st : FilterState) : FilterState :=
  mkFilterState (labelFilter st) "" "" (merchantSearch st).

Definition clearMerchant (st : FilterState) : FilterState :=
  mkFilterState (labelFilter st) (priceMin st) (priceMax st) "".

Definition clearAllBadges (st : FilterState) : FilterState :=
  clearMerchant (clearPrice (clearLabels st)).

(** The check box of bucket [k]. *)
Definition toggleBucket (st : FilterState) (k : LabelBucket) (checked : bool)
  : FilterState :=
  mkFilterState (setFlag (labelFilter st) k checked) (priceMin st)
    (priceMax st) (merchantSearch st).

(** *** The whole pipeline *)

(** What the page lists: dedupe, sort, filter, paginate, in this order. *)
Definition shownResults (parseFloat : string -> xnum) (results : list Hit)
    (sortBy : SortKey) (st : FilterState) (visibleCount : Z) : list Hit :=
  visibleResults visibleCount
    (filteredResults parseFloat st
       (sortedResults sortBy (dedupedResults results))).

(** The sort key of a hit and the direction, for each [SortKey] that
    sorts. *)
Definition sortValue (sortBy : SortKey) (h : Hit) : xnum :=
  match sortBy with
  | priceAsc => priceOr PosInf h
  | priceDesc => priceOr NegInf h
  | _ => scoreOr0 h
  end.

Definition descending (sortBy : SortKey) : bool :=
  match sortBy with
  | priceDesc | scoreDesc => true
  | _ => false
  end.

(** [h] compares equal to [z]. *)
Definition ranksEqual {A : Type} (comparefn : A -> A -> xnum) (z h : A) : bool :=
  match signOf (comparefn z h) with Eq => true | _ => false end.

(** [h.score ?? 0], as a number. *)
Definition scoreValue (h : Hit) : Q :=
  match score h with Some v => v | None => 0%Q end.

Instance LabelBucket_eq_dec : EqDecision LabelBucket.
Proof. solve_decision. Defined.

Instance SortKey_eq_dec : EqDecision SortKey.
Proof. solve_decision. Defined.

(** A hit with only a score. *)
Definition scored (id : Z) (s : option Q) : Hit :=
  mkHit id s None None None None None None None.

(** All bytes of [s] are white-space characters of one byte. *)
Definition allWhiteSpace (s : string) : Prop :=
  Forall (fun c => isWhiteSpace c = true) (list_ascii_of_string s).

End ResultPipeline.

(** ** 5. The page: state and handlers *)

Module Page.
Import DataModel CoordinateMapper SearchClient ResultPipeline.
Local Open Scope string_scope.

(** A [File]: its MIME type and its content. *)
Record File : Type := mkFile {
  file_type : string;
  file_content : string
}.

(** Object URLs are numbered in the order [URL.createObjectURL] hands them
    out. *)
Definition ObjectURL : Type := nat.

(** What the browser knows of the object URLs: the next one to hand out and
    those revoked so far. *)
Record UrlStore : Type := mkUrlStore {
  nextUrl : ObjectURL;
  revoked : list ObjectURL
}.

Definition createObjectURL (u : UrlStore) : ObjectURL * UrlStore :=
  (nextUrl u, mkUrlStore (S (nextUrl u)) (revoked u)).

Definition revokeObjectURL (url : ObjectURL) (u : UrlStore) : UrlStore :=
  mkUrlStore (nextUrl u) (url :: revoked u).

(** [if (url) URL.revokeObjectURL(url)] *)
Definition revokeIfSet (url : option ObjectURL) (u : UrlStore) : UrlStore :=
  match url with Some x => revokeObjectURL x u | None => u end.

Inductive ToastType : Type := ToastOk | ToastErr | ToastInfo.

(** The message [toast.show] displays; its timer is not modelled. *)
Record Toast : Type := mkToast {
  toast_msg : string;
  toast_type : ToastType
}.

(** The state of [UploadPage]: its [useState] cells, the toast, and the
    object URLs of the browser.  The effect hook that revokes the URLs when
    they change or the page unmounts is not part of the handlers below. *)
Record PageState : Type := mkPage {
  file : option File;
  originalUrl : option ObjectURL;
  naturalSize : option (Q * Q);
  crop : option Crop;
  modalOpen : bool;
  loading : bool;
  error : option string;
  results : list Hit;
  sortBy : SortKey;
  visibleCount : Z;
  filters : FilterState;
  cropPreviewUrl : option ObjectURL;
  lastCropBlob : option string;
  cropPx : option PixelCrop;
  toast : option Toast;
  urls : UrlStore
}.

Definition setFile (v : option File) (st : PageState) : PageState :=
  mkPage v (originalUrl st) (naturalSize st) (crop st) (modalOpen st)
    (loading st) (error st) (results st) (sortBy st) (visibleCount st)
    (filters st) (cropPreviewUrl st) (lastCropBlob st) (cropPx st)
    (toast st) (urls st).

Definition setOriginalUrl (v : option ObjectURL) (st : PageState) : PageState :=
  mkPage (file st) v (naturalSize st) (crop st) (modalOpen st) (loading st)
    (error st) (results st) (sortBy st) (visibleCount st) (filters st)
    (cropPreviewUrl st) (lastCropBlob st) (cropPx st) (toast st) (urls st).

Definition setNaturalSize (v : option (Q * Q)) (st : PageState) : PageState :=
  mkPage (file st) (originalUrl st) v (crop st) (modalOpen st) (loading st)
    (error st) (results st) (sortBy st) (visibleCount st) (filters st)
    (cropPreviewUrl st) (lastCropBlob st) (cropPx st) (toast st) (urls st).

Definition setCrop (v : option Crop) (st : PageState) : PageState :=
  mkPage (file st) (originalUrl st) (naturalSize st) v (modalOpen st)
    (loading st) (error st) (results st) (sortBy st) (visibleCount st)
    (filters st) (cropPreviewUrl st) (lastCropBlob st) (cropPx st)
    (toast st) (urls st).

Definition setModalOpen (v : bool) (st : PageState) : PageState :=
  mkPage (file st) (originalUrl st) (naturalSize st) (crop st) v
    (loading st) (error st) (results st) (sortBy st) (visibleCount st)
    (filters st) (cropPreviewUrl st) (lastCropBlob st) (cropPx st)
    (toast st) (urls st).

Definition setLoading (v : bool) (st : PageState) : PageState :=
  mkPage (file st) (originalUrl st) (naturalSize st) (crop st)
    (modalOpen st) v (error st) (results st) (sortBy st) (visibleCount st)
    (filters st) (cropPreviewUrl st) (lastCropBlob st) (cropPx st)
    (toast st) (urls st).

Definition setError (v : option string) (st : PageState) : PageState :=
  mkPage (file st) (originalUrl st) (naturalSize st) (crop st)
    (modalOpen st) (loading st) v (results st) (sortBy st) (visibleCount st)
    (filters st) (cropPreviewUrl st) (lastCropBlob st) (cropPx st)
    (toast st) (urls st).

Definition setResults (v : list Hit) (st : PageState) : PageState :=
  mkPage (file st) (originalUrl st) (naturalSize st) (crop st)
    (modalOpen st) (loading st) (error st) v (sortBy st) (visibleCount st)
    (filters st) (cropPreviewUrl st) (lastCropBlob st) (cropPx st)
    (toast st) (urls st).

Definition setSortBy (v : SortKey) (st : PageState) : PageState :=
  mkPage (file st) (originalUrl st) (naturalSize st) (crop st)
    (modalOpen st) (loading st) (error st) (results st) v (visibleCount st)
    (filters st) (cropPreviewUrl st) (lastCropBlob st) (cropPx st)
    (toast st) (urls st).

Definition setVisibleCountTo (v : Z) (st : PageState) : PageState :=
  mkPage (file st) (originalUrl st) (naturalSize st) (crop st)
    (modalOpen st) (loading st) (error st) (results st) (sortBy st) v
    (filters st) (cropPreviewUrl st) (lastCropBlob st) (cropPx st)
    (toast st) (urls st).

Definition setFilters (v : FilterState) (st : PageState) : PageState :=
  mkPage (file st) (originalUrl st) (naturalSize st) (crop st)
    (modalOpen st) (loading st) (error st) (results st) (sortBy st)
    (visibleCount st) v (cropPreviewUrl st) (lastCropBlob st) (cropPx st)
    (toast st) (urls st).

Definition setCropPreviewUrl (v : option ObjectURL) (st : PageState) : PageState :=
  mkPage (file st) (originalUrl st) (naturalSize st) (crop st)
    (modalOpen st) (loading st) (error st) (results st) (sortBy st)
    (visibleCount st) (filters st) v (lastCropBlob st) (cropPx st)
    (toast st) (urls st).

Definition setLastCropBlob (v : option string) (st : PageState) : PageState :=
  mkPage (file st) (originalUrl st) (naturalSize st) (crop st)
    (modalOpen st) (loading st) (error st) (results st) (sortBy st)
    (visibleCount st) (filters st) (cropPreviewUrl st) v (cropPx st)
    (toast st) (urls st).

Definition setCropPx (v : option PixelCrop) (st : PageState) : PageState :=
  mkPage (file st) (originalUrl st) (naturalSize st) (crop st)
    (modalOpen st) (loading st) (error st) (results st) (sortBy st)
    (visibleCount st) (filters st) (cropPreviewUrl st) (lastCropBlob st) v
    (toast st) (urls st).

Definition setToast (v : option Toast) (st : PageState) : PageState :=
  mkPage (file st) (originalUrl st) (naturalSize st) (crop st)
    (modalOpen st) (loading st) (error st) (results st) (sortBy st)
    (visibleCount st) (filters st) (cropPreviewUrl st) (lastCropBlob st)
    (cropPx st) v (urls st).

Definition setUrls (v : UrlStore) (st : PageState) : PageState :=
  mkPage (file st) (originalUrl st) (naturalSize st) (crop st)
    (modalOpen st) (loading st) (error st) (results st) (sortBy st)
    (visibleCount st) (filters st) (cropPreviewUrl st) (lastCropBlob st)
    (cropPx st) (toast st) v.

(** [toast.show(m, t)] *)
Definition showToast (m : string) (t : ToastType) (st : PageState) : PageState :=
  setToast (Some (mkToast m t)) st.

(** [handleFiles(files)] *)
Definition handleFiles (files : list File) (st : PageState) : PageState :=
  match head files with
  | None => st
  | Some f =>
      if negb (startsWith (file_type f) "image/")
      then showToast "Bitte ein Bild auswählen." ToastErr st
      else
        let u1 := revokeIfSet (originalUrl st) (urls st) in
        let u2 := revokeIfSet (cropPreviewUrl st) u1 in
        let (url, u3) := createObjectURL u2 in
        {| file := Some f;
           originalUrl := Some url;
           naturalSize := None;
           crop := None;
           modalOpen := true;
           loading := loading st;
           error := None;
           results := [];
           sortBy := relevance;
           visibleCount := 12;
           filters := mkFilterState defaultLabelFilter "" "" "";
           cropPreviewUrl := None;
           lastCropBlob := None;
           cropPx := None;
           toast := toast st;
           urls := u3 |}
  end.

(** The [onLoad] handler of the image in the crop editor. *)
Definition imageLoaded (img : HTMLImageElement) (st : PageState) : PageState :=
  let st1 := match naturalSize st with
             | None => setNaturalSize
                         (Some (naturalWidth img, naturalHeight img)) st
             | Some _ => st
             end in
  match crop st with
  | Some _ => st1
  | None =>
      match cropPx st with
      | Some px =>
          setCrop (Some (pixelToPercentCropWithSize px (naturalWidth img)
                           (naturalHeight img))) st1
      | None => setCrop (Some defaultCrop) st1
      end
  end.

(** [ensureImageUrl()]: a new object URL for the file; the old one is
    revoked.  (Object URLs always start with ["blob:"].) *)
Definition ensureImageUrl (st : PageState) : PageState :=
  match file st with
  | None => st
  | Some _ =>
      let (newUrl, u1) := createObjectURL (urls st) in
      setUrls (revokeIfSet (originalUrl st) u1)
        (setOriginalUrl (Some newUrl) st)
  end.

(** The button "Ausschnitt ändern". *)
Definition changeSelection (st : PageState) : PageState :=
  let st1 := match originalUrl st with
             | None => ensureImageUrl st
             | Some _ => st
             end in
  setModalOpen true (setCrop None st1).

(** What an asynchronous handler leaves behind: the state once it has
    completed, and the requests it sent. *)
Record Completed : Type := mkCompleted {
  after : PageState;
  sent : list Request
}.

(** [`${hits.length} Treffer gefunden.`] *)
Definition hitsFoundMessage (hits : list Hit) : string :=
  String_of_Z (Z.of_nat (length hits)) +:+ " Treffer gefunden.".

Section Handlers.
(** The environment of the asynchronous handlers: the canvas, the message of
    the [TypeError] that [URL.createObjectURL(null)] throws, the
    configuration and the network. *)
Variable canvas : CanvasEnv.
Variable nullBlobMessage : string.
Variable env : ProcessEnv.
Variable fetch : Request -> FetchOutcome.

(** The [catch] and [finally] blocks of [confirmAndSearch]. *)
Definition failWith (msg : string) (t : ToastType) (st : PageState) : PageState :=
  setLoading false (showToast msg t (setError (Some msg) st)).

(** [confirmAndSearch()], with [imgEl] for [modalImgRef.current]. *)
Definition confirmAndSearch (imgEl : option HTMLImageElement) (st : PageState)
  : Completed :=
  match file st, imgEl, crop st with
  | Some _, Some img, Some c =>
      let st1 := setVisibleCountTo 12
                   (setResults [] (setError None (setLoading true st))) in
      let px := toPixelCrop c img in
      let st2 := setCropPx (Some px) st1 in
      match getCroppedBlob canvas img px with
      | NoCanvasContext =>
          mkCompleted (failWith "Canvas context not available" ToastErr st2) []
      | BlobResolved None =>
          mkCompleted (failWith nullBlobMessage ToastErr st2) []
      | BlobResolved (Some cropBlob) =>
          let (cropUrl, u1) := createObjectURL (urls st2) in
          let u2 := revokeIfSet (cropPreviewUrl st) u1 in
          let st3 := showToast "Suche gestartet …" ToastInfo
                       (setLastCropBlob (Some cropBlob)
                          (setCropPreviewUrl (Some cropUrl)
                             (setUrls u2 st2))) in
          let run := runSearchByUpload env fetch cropBlob in
          match outcome run with
          | Ok data =>
              let hits := hitsOf data in
              let st4 := setModalOpen false (setResults hits st3) in
              let st5 := match hits with
                         | [] => showToast "Keine Treffer gefunden." ToastInfo st4
                         | _ => showToast (hitsFoundMessage hits) ToastOk st4
                         end in
              mkCompleted (setLoading false st5) (contacted run)
          | Err e =>
              mkCompleted (failWith (message e) ToastErr st3) (contacted run)
          end
      end
  | _, _, _ => mkCompleted st []
  end.

(** [resubmitWithSameCrop()] *)
Definition resubmitWithSameCrop (st : PageState) : Completed :=
  match file st with
  | None => mkCompleted st []
  | Some f =>
      let st1 := showToast "Suche läuft …" ToastInfo
                   (setError None (setLoading true st)) in
      let payload := match lastCropBlob st with
                     | Some b => b
                     | None => file_content f
                     end in
      let run := runSearchByUpload env fetch payload in
      match outcome run with
      | Ok data =>
          mkCompleted
            (setLoading false
               (setVisibleCountTo 12 (setResults (hitsOf data) st1)))
            (contacted run)
      | Err e =>
          mkCompleted (failWith (message e) ToastErr st1) (contacted run)
      end
  end.
End Handlers.

(** The state of the first render. *)
Definition initialState : PageState :=
  {| file := None; originalUrl := None; naturalSize := None; crop := None;
     modalOpen := false; loading := false; error := None; results := [];
     sortBy := relevance; visibleCount := 12;
     filters := mkFilterState defaultLabelFilter "" "" "";
     cropPreviewUrl := None; lastCropBlob := None; cropPx := None;
     toast := None; urls := mkUrlStore 0 [] |}.

(** What the page lists in a state. *)
Definition listed (parseFloat : string -> xnum) (st : PageState) : list Hit :=
  shownResults parseFloat (results st) (sortBy st) (filters st)
    (visibleCount st).

(** Fixtures for the examples: a canvas that encodes every drawing to the
    same bytes, a JPEG file, and a page on which that file was chosen and
    the default selection installed. *)
Definition sampleCanvas : CanvasEnv := mkCanvasEnv true (fun _ _ _ => Some "crop").

Definition sampleFile : File := mkFile "image/jpeg" "original".

Definition sampleImg : HTMLImageElement := mkImg 1000 800 500 400 500 400.

Definition samplePage : PageState :=
  setCrop (Some defaultCrop) (handleFiles [sampleFile] initialState).

End Page.

Module CoordinateMapperFacts.
Import CoordinateMapper.
Local Open Scope Q_scope.

Lemma Math_round_lower (v : Q) : v - (1 # 2) < Math_round v.
Proof.
  unfold Math_round.
  pose proof (Qlt_floor (v + (1 # 2))) as H.
  rewrite inject_Z_plus in H. change (inject_Z 1) with 1 in H. lra.
Qed.

Lemma Math_round_upper (v : Q) : Math_round v <= v + (1 # 2).
Proof. unfold Math_round. apply Qfloor_le. Qed.

Lemma Math_round_nonneg (v : Q) : 0 <= v -> 0 <= Math_round v.
Proof.
  intros Hv.
  assert (Qfloor 0 <= Qfloor (v + (1 # 2)))%Z as Hfl
    by (apply Qfloor_resp_le; lra).
  unfold Math_round. change 0 with (inject_Z 0). rewrite <- Zle_Qle.
  exact Hfl.
Qed.

Lemma Math_max_l (a b : Q) : a <= Math_max a b.
Proof. apply Q.le_max_l. Qed.

Lemma Math_max_r (a b : Q) : b <= Math_max a b.
Proof. apply Q.le_max_r. Qed.

Lemma Math_max_cases (a b : Q) :
  (b <= a /\ Math_max a b == a) \/ (a <= b /\ Math_max a b == b).
Proof.
  unfold Math_max.
  destruct (Q.max_spec a b) as [[H1 H2] | [H1 H2]].
  - right. split; [lra | exact H2].
  - left. split; [exact H1 | exact H2].
Qed.

(** The scenario of the spec: the default selection on a 1000 x 800 image. *)
Example toPixelCrop_default_1000x800 :
  toPixelCrop defaultCrop (mkImg 1000 800 500 400 500 400)
  = mkPixelCrop 120 96 760 608.
Proof. vm_compute. reflexivity. Qed.

Lemma Math_round_integral (v : Q) : exists z : Z, Math_round v = inject_Z z.
Proof. unfold Math_round. eexists. reflexivity. Qed.

(** With positive dimensions the scale factors never divide by zero. *)
Lemma renderedW_fallback (img : HTMLImageElement) :
  img_width img == 0 -> rect_width img == 0 ->
  renderedW img = naturalWidth img.
Proof.
  intros H1 H2. unfold renderedW, js_or.
  apply Qeq_bool_iff in H1. rewrite H1.
  apply Qeq_bool_iff in H2. rewrite H2. reflexivity.
Qed.

Lemma renderedW_nonzero (img : HTMLImageElement) :
  ~ naturalWidth img == 0 -> ~ renderedW img == 0.
Proof.
  intros Hn. unfold renderedW, js_or.
  destruct (Qeq_bool (img_width img) 0) eqn:E1.
  - destruct (Qeq_bool (rect_width img) 0) eqn:E2.
    + exact Hn.
    + intros H. apply Qeq_bool_iff in H. congruence.
  - rewrite E1. intros H. apply Qeq_bool_iff in H. congruence.
Qed.

(** Rounding moves a value by at most half a unit. *)
Lemma Math_round_error (v : Q) : Qabs (Math_round v - v) <= 1 # 2.
Proof.
  apply Qabs_Qle_condition.
  pose proof (Math_round_lower v) as Hlo.
  pose proof (Math_round_upper v) as Hup.
  split; lra.
Qed.

(** The clamp [Math.max(0, .)] is the identity on the rounding of a
    non-negative value. *)
Lemma clamp0_round_nonneg (v : Q) :
  0 <= v -> Math_max 0 (Math_round v) == Math_round v.
Proof.
  intros Hv. pose proof (Math_round_nonneg v Hv) as Hr.
  destruct (Math_max_cases 0 (Math_round v)) as [[H1 H2] | [H1 H2]]; lra.
Qed.

(** The clamp [Math.max(1, .)] moves the rounding of a non-negative value
    by at most one unit away from the value. *)
Lemma clamp1_round_error (v : Q) :
  0 <= v -> Qabs (Math_max 1 (Math_round v) - v) <= 1.
Proof.
  intros Hv. apply Qabs_Qle_condition.
  pose proof (Math_round_lower v) as Hlo.
  pose proof (Math_round_upper v) as Hup.
  pose proof (Math_round_nonneg v Hv) as Hr.
  destruct (Math_max_cases 1 (Math_round v)) as [[H1 H2] | [H1 H2]];
    split; lra.
Qed.

(** ... and by at most half a unit when the value is at least half a unit. *)
Lemma clamp1_round_error_half (v : Q) :
  1 # 2 <= v -> Qabs (Math_max 1 (Math_round v) - v) <= 1 # 2.
Proof.
  intros Hv. apply Qabs_Qle_condition.
  pose proof (Math_round_lower v) as Hlo.
  pose proof (Math_round_upper v) as Hup.
  assert (1 <= Math_round v) as Hr.
  { assert (Qfloor 1 <= Qfloor (v + (1 # 2)))%Z as Hfl
      by (apply Qfloor_resp_le; lra).
    unfold Math_round. change 1 with (inject_Z 1). rewrite <- Zle_Qle.
    exact Hfl. }
  destruct (Math_max_cases 1 (Math_round v)) as [[H1 H2] | [H1 H2]];
    split; lra.
Qed.

(** An error of [e] natural pixels is an error of [pct_of_pixels e] percent
    once the pixel value is mapped back. *)
Lemma recover_bound (natural m s e : Q) :
  0 < natural ->
  Qabs (m - (s / 100) * natural) <= e ->
  Qabs ((m / natural) * 100 - s) <= pct_of_pixels e natural.
Proof.
  intros Hn He. unfold pct_of_pixels.
  assert (0 < 100 / natural) as Hpos.
  { apply Qlt_shift_div_l; lra. }
  assert ((m / natural) * 100 - s
          == (m - (s / 100) * natural) * (100 / natural)) as E1
    by (field; lra).
  assert (e * 100 / natural == e * (100 / natural)) as E2 by (field; lra).
  rewrite E1, E2, Qabs_Qmult.
  rewrite (Qabs_pos (100 / natural)) by lra.
  apply Qmult_le_compat_r; [exact He | lra].
Qed.

Lemma scaled_nonneg (s natural : Q) :
  0 <= s -> 0 < natural -> 0 <= (s / 100) * natural.
Proof.
  intros Hs Hn. apply Qmult_le_0_compat; [| lra].
  apply Qle_shift_div_l; lra.
Qed.

(** C1. For every crop selection, percentage-based or rendered-pixel-based
    and with any coordinate absent, and all positive rendered and natural
    dimensions, [toPixelCrop] returns a rectangle with width >= 1,
    height >= 1, x >= 0 and y >= 0.  The positive dimensions keep the
    divisions of the scale factors defined; the bounds themselves come from
    the final clamps. *)
Theorem toPixelCrop_nonempty_inbounds (c : Crop) (img : HTMLImageElement) :
  0 < naturalWidth img -> 0 < naturalHeight img ->
  0 < renderedW img -> 0 < renderedH img ->
  1 <= px_width (toPixelCrop c img) /\ 1 <= px_height (toPixelCrop c img) /\
  0 <= px_x (toPixelCrop c img) /\ 0 <= px_y (toPixelCrop c img).
Proof.
  intros _ _ _ _. unfold toPixelCrop. cbn [px_width px_height px_x px_y].
  repeat split; apply Math_max_l.
Qed.

Lemma toPixelCrop_nonempty_inbounds_witness :
  let img := mkImg 1000 800 0 0 500 400 in
  let c := mkCrop UnitPx None (Some (-3)) (Some (1 # 10)) None in
  (0 < naturalWidth img /\ 0 < naturalHeight img /\
   0 < renderedW img /\ 0 < renderedH img) /\
  1 <= px_width (toPixelCrop c img) /\ 1 <= px_height (toPixelCrop c img) /\
  0 <= px_x (toPixelCrop c img) /\ 0 <= px_y (toPixelCrop c img).
Proof.
  split.
  - repeat split; reflexivity.
  - apply toPixelCrop_nonempty_inbounds; reflexivity.
Defined.

(** A value below half a unit rounds to 0, and the clamp makes it 1. *)
Lemma clamp1_round_small (v : Q) :
  0 <= v -> v < 1 # 2 -> Math_max 1 (Math_round v) = 1.
Proof.
  intros H0 Hhalf.
  assert (Qfloor (v + (1 # 2)) = 0%Z) as Hfl.
  { pose proof (Qfloor_le (v + (1 # 2))) as Hle.
    pose proof (Qlt_floor (v + (1 # 2))) as Hlt.
    assert (inject_Z (Qfloor (v + (1 # 2))) < inject_Z 1) as H1
      by (change (inject_Z 1) with 1; lra).
    assert (inject_Z (-1) < inject_Z (Qfloor (v + (1 # 2)))) as H2.
    { apply Qlt_minus_iff.
      assert (inject_Z (Qfloor (v + (1 # 2))) + - inject_Z (-1)
              == inject_Z (Qfloor (v + (1 # 2)) + 1)) as E
        by (rewrite inject_Z_plus; change (inject_Z (-1)) with (-1);
            change (inject_Z 1) with 1; lra).
      rewrite E. lra. }
    rewrite <- Zlt_Qlt in H1, H2. lia. }
  unfold Math_round. rewrite Hfl. reflexivity.
Qed.



Example percent_roundtrip_rounds :
  let img := mkImg 1000 800 500 400 500 400 in
  toPixelCrop (pctCrop (1 # 3) (29 # 16) (200 # 3) (1 # 100)) img
  = wholeRect 3 15 667 1.
Proof. reflexivity. Qed.


(** The same for an empty selection: it comes back one natural pixel
    wide. *)
Example roundtrip_empty_width :
  crop_width (pixelToPercentCropWithSize
                (toPixelCrop (pctCrop 10 10 0 50) (mkImg 1000 800 0 0 0 0))
                1000 800)
  = Some ((1 / 1000) * 100).
Proof. reflexivity. Qed.

(** Exact round trip when the selection falls on whole pixels. *)
Example roundtrip_default_exact :
  match crop_x (pixelToPercentCropWithSize
                  (toPixelCrop defaultCrop (mkImg 1000 800 0 0 0 0)) 1000 800)
  with Some q => q == 12 | None => False end.
Proof. reflexivity. Qed.

(** *** Further properties of the coordinate mapper *)

Lemma Qfloor_whole_half (z : Z) : Qfloor (inject_Z z + (1 # 2)) = z.
Proof.
  pose proof (Qfloor_le (inject_Z z + (1 # 2))) as Hle.
  pose proof (Qlt_floor (inject_Z z + (1 # 2))) as Hlt.
  assert (inject_Z (Qfloor (inject_Z z + (1 # 2))) < inject_Z (z + 1)) as H1
    by (rewrite inject_Z_plus; change (inject_Z 1) with 1; lra).
  assert (inject_Z z < inject_Z (Qfloor (inject_Z z + (1 # 2)) + 1)) as H2 by lra.
  rewrite <- Zlt_Qlt in H1, H2. lia.
Qed.

Lemma Math_round_whole (z : Z) : Math_round (inject_Z z) = inject_Z z.
Proof. unfold Math_round. rewrite Qfloor_whole_half. reflexivity. Qed.

Lemma Math_round_comp (a b : Q) : a == b -> Math_round a = Math_round b.
Proof.
  intros E. unfold Math_round. f_equal. apply Qfloor_comp. rewrite E. reflexivity.
Qed.

Lemma Math_round_of_whole (v : Q) (z : Z) : v == inject_Z z -> Math_round v = inject_Z z.
Proof. intros E. rewrite (Math_round_comp _ _ E). apply Math_round_whole. Qed.

Lemma Math_max_inject_Z (a z : Z) :
  Math_max (inject_Z a) (inject_Z z) = inject_Z (Z.max a z).
Proof.
  unfold Math_max, Qmax, GenericMinMax.gmax, Qcompare.
  cbn [Qnum Qden inject_Z]. rewrite !Z.mul_1_r.
  destruct (a ?= z)%Z eqn:E.
  - rewrite Z.compare_eq_iff in E. subst. rewrite Z.max_id. reflexivity.
  - rewrite Z.compare_lt_iff in E. rewrite Z.max_r by lia. reflexivity.
  - rewrite Z.compare_gt_iff in E. rewrite Z.max_l by lia. reflexivity.
Qed.

(** The clamps of [toPixelCrop], on the whole number a coordinate rounds
    to. *)
Lemma clamp_round (a f : Z) (v : Q) :
  Math_round v = inject_Z f ->
  Math_max (inject_Z a) (Math_round v) = inject_Z (Z.max a f).
Proof. intros ->. apply Math_max_inject_Z. Qed.

Lemma toPixelCrop_wholeRect (c : Crop) (img : HTMLImageElement) :
  exists x y w h : Z,
    toPixelCrop c img = wholeRect x y w h /\
    (0 <= x)%Z /\ (0 <= y)%Z /\ (1 <= w)%Z /\ (1 <= h)%Z.
Proof.
  unfold toPixelCrop, wholeRect.
  change 0 with (inject_Z 0). change 1 with (inject_Z 1).
  unfold Math_round. rewrite !Math_max_inject_Z.
  do 4 eexists. split; [reflexivity | lia].
Qed.

(** X1. With positive dimensions, the rectangle [toPixelCrop] returns has
    whole-number coordinates: it is a rectangle of natural pixels with
    x, y >= 0 and width, height >= 1. *)
Theorem toPixelCrop_whole_pixels (c : Crop) (img : HTMLImageElement) :
  0 < naturalWidth img -> 0 < naturalHeight img ->
  0 < renderedW img -> 0 < renderedH img ->
  exists x y w h : Z,
    toPixelCrop c img = wholeRect x y w h /\
    (0 <= x)%Z /\ (0 <= y)%Z /\ (1 <= w)%Z /\ (1 <= h)%Z.
Proof. intros _ _ _ _. apply toPixelCrop_wholeRect. Qed.

Lemma toPixelCrop_whole_pixels_witness :
  let img := mkImg 1000 800 0 0 500 400 in
  let c := pxCrop (21 # 2) (-3) (1 # 10) 100 in
  (0 < naturalWidth img /\ 0 < naturalHeight img /\
   0 < renderedW img /\ 0 < renderedH img) /\
  exists x y w h : Z,
    toPixelCrop c img = wholeRect x y w h /\
    (0 <= x)%Z /\ (0 <= y)%Z /\ (1 <= w)%Z /\ (1 <= h)%Z.
Proof.
  split.
  - repeat split; reflexivity.
  - apply toPixelCrop_whole_pixels; reflexivity.
Defined.

(** A percentage selection does not depend on how the image is
    displayed: two image elements with the same natural size give the same
    pixel rectangle, whatever their rendered sizes. *)
Theorem toPixelCrop_pct_layout_independent (c : Crop) (img img' : HTMLImageElement) :
  crop_unit c = UnitPct ->
  naturalWidth img = naturalWidth img' ->
  naturalHeight img = naturalHeight img' ->
  toPixelCrop c img = toPixelCrop c img'.
Proof.
  intros Hu HW HH. unfold toPixelCrop, isPct. rewrite Hu, HW, HH. reflexivity.
Qed.

Lemma toPixelCrop_pct_layout_independent_witness :
  let c := pctCrop 10 20 (61 # 2) 40 in
  let img := mkImg 1000 800 500 400 0 0 in
  let img' := mkImg 1000 800 0 0 (333 # 2) 111 in
  (crop_unit c = UnitPct /\ naturalWidth img = naturalWidth img' /\
   naturalHeight img = naturalHeight img') /\
  toPixelCrop c img = toPixelCrop c img'.
Proof.
  split; [repeat split |].
  apply toPixelCrop_pct_layout_independent; reflexivity.
Defined.

Lemma wholeRect_roundtrip (x y w h : Z) (img : HTMLImageElement) :
  0 < naturalWidth img -> 0 < naturalHeight img ->
  (0 <= x)%Z -> (0 <= y)%Z -> (1 <= w)%Z -> (1 <= h)%Z ->
  toPixelCrop
    (pixelToPercentCropWithSize (wholeRect x y w h)
       (naturalWidth img) (naturalHeight img)) img
  = wholeRect x y w h.
Proof.
  intros HW HH Hx Hy Hw Hh.
  unfold toPixelCrop, pixelToPercentCropWithSize, wholeRect, isPct.
  cbn [crop_unit crop_x crop_y crop_width crop_height nullish0
       px_x px_y px_width px_height].
  assert (forall (z : Z) (n : Q), 0 < n ->
            Math_round (inject_Z z / n * 100 / 100 * n) = inject_Z z) as Hback.
  { intros z n Hn. apply Math_round_of_whole. field. lra. }
  rewrite !Hback by assumption.
  change 0 with (inject_Z 0). change 1 with (inject_Z 1).
  rewrite !Math_max_inject_Z.
  rewrite !Z.max_r by lia. reflexivity.
Qed.

(** X3. The way back is exact: a rectangle of whole natural pixels with
    x, y >= 0 and width, height >= 1, turned into a percentage selection by
    [pixelToPercentCropWithSize] and resolved again by [toPixelCrop] on the
    same image, is the rectangle itself. *)
Theorem pixel_percent_pixel_roundtrip (x y w h : Z) (img : HTMLImageElement) :
  0 < naturalWidth img -> 0 < naturalHeight img ->
  (0 <= x)%Z -> (0 <= y)%Z -> (1 <= w)%Z -> (1 <= h)%Z ->
  toPixelCrop
    (pixelToPercentCropWithSize (wholeRect x y w h)
       (naturalWidth img) (naturalHeight img)) img
  = wholeRect x y w h.
Proof. apply wholeRect_roundtrip. Qed.

Lemma pixel_percent_pixel_roundtrip_witness :
  let img := mkImg 1000 800 500 400 0 0 in
  (0 < naturalWidth img /\ 0 < naturalHeight img /\
   (0 <= 333)%Z /\ (0 <= 0)%Z /\ (1 <= 1)%Z /\ (1 <= 799)%Z) /\
  toPixelCrop
    (pixelToPercentCropWithSize (wholeRect 333 0 1 799)
       (naturalWidth img) (naturalHeight img)) img
  = wholeRect 333 0 1 799.
Proof.
  split.
  - repeat split; try reflexivity; lia.
  - apply pixel_percent_pixel_roundtrip; try reflexivity; lia.
Defined.

Lemma scaled_le_natural (s natural : Q) :
  s <= 100 -> 0 < natural -> (s / 100) * natural <= natural.
Proof.
  intros Hs Hn.
  assert ((s / 100) * natural == s * (natural / 100)) as E by field.
  assert (natural == 100 * (natural / 100)) as E' by field.
  rewrite E. rewrite E' at 2.
  apply Qmult_le_compat_r; [exact Hs |].
  apply Qle_shift_div_l; lra.
Qed.

Lemma scaled_sum (a b natural : Q) :
  (a / 100) * natural + (b / 100) * natural == ((a + b) / 100) * natural.
Proof. field. Qed.

(** A whole number that is at most half a unit above another whole number
    is at most that number. *)
Lemma whole_le_of_half (f n : Z) : inject_Z f <= inject_Z n + (1 # 2) -> inject_Z f <= inject_Z n.
Proof.
  intros H. rewrite <- Zle_Qle.
  assert (inject_Z f < inject_Z (n + 1)) as Hlt
    by (rewrite inject_Z_plus; change (inject_Z 1) with 1; lra).
  rewrite <- Zlt_Qlt in Hlt. lia.
Qed.

(** One dimension of a percentage selection that lies inside the image. *)
Lemma pct_extent_bound (s e : Q) (n : Z) :
  (0 < n)%Z -> 0 <= s -> 0 <= e -> s + e <= 100 ->
  let N := inject_Z n in
  let origin := Math_max 0 (Math_round ((s / 100) * N)) in
  let extent := Math_max 1 (Math_round ((e / 100) * N)) in
  origin <= N /\ origin + extent <= N + 1.
Proof.
  intros Hn Hs He Hse N origin extent.
  assert (0 < N) as HN
    by (unfold N; change 0 with (inject_Z 0); rewrite <- Zlt_Qlt; exact Hn).
  pose proof (scaled_nonneg s N Hs HN) as Hs0.
  pose proof (scaled_nonneg e N He HN) as He0.
  assert ((s / 100) * N + (e / 100) * N <= N) as Hsum
    by (rewrite scaled_sum; apply scaled_le_natural; assumption).
  pose proof (Math_round_upper ((s / 100) * N)) as Hsu.
  pose proof (Math_round_upper ((e / 100) * N)) as Heu.
  assert (origin == Math_round ((s / 100) * N)) as Eo
    by (apply clamp0_round_nonneg; exact Hs0).
  assert (origin <= N) as HoN.
  { rewrite Eo. unfold Math_round in *. apply whole_le_of_half. unfold N in *. lra. }
  split; [exact HoN |].
  destruct (Math_max_cases 1 (Math_round ((e / 100) * N))) as [[H1 H2] | [H1 H2]];
    fold extent in H2; rewrite H2; lra.
Qed.

(** X4. A percentage selection that lies inside the image (non-negative
    coordinates, x + width <= 100 and y + height <= 100), on an image whose
    natural size is a whole number of pixels, resolves to a rectangle whose
    origin is inside the image and that reaches at most one pixel beyond
    the right and the bottom edge. *)
Theorem pct_rectangle_overhang (sx sy sw sh : Q) (nw nh : Z)
    (img : HTMLImageElement) :
  naturalWidth img = inject_Z nw -> naturalHeight img = inject_Z nh ->
  (0 < nw)%Z -> (0 < nh)%Z ->
  0 <= sx -> 0 <= sy -> 0 <= sw -> 0 <= sh ->
  sx + sw <= 100 -> sy + sh <= 100 ->
  let p := toPixelCrop (pctCrop sx sy sw sh) img in
  px_x p <= naturalWidth img /\ px_y p <= naturalHeight img /\
  px_x p + px_width p <= naturalWidth img + 1 /\
  px_y p + px_height p <= naturalHeight img + 1.
Proof.
  intros EW EH Hnw Hnh Hx Hy Hw Hh Hxw Hyh p. subst p.
  unfold toPixelCrop, pctCrop, isPct.
  cbn [crop_unit crop_x crop_y crop_width crop_height nullish0
       px_x px_y px_width px_height].
  rewrite EW, EH.
  destruct (pct_extent_bound sx sw nw Hnw Hx Hw Hxw) as [H1 H2].
  destruct (pct_extent_bound sy sh nh Hnh Hy Hh Hyh) as [H3 H4].
  repeat split; assumption.
Qed.

Lemma pct_rectangle_overhang_witness :
  let img := mkImg 10 10 0 0 0 0 in
  let p := toPixelCrop (pctCrop 5 0 95 100) img in
  (naturalWidth img = inject_Z 10 /\ naturalHeight img = inject_Z 10 /\
   (0 < 10)%Z /\ (0 < 10)%Z /\ 0 <= 5 /\ 0 <= 0 /\ 0 <= 95 /\ 0 <= 100 /\
   5 + 95 <= 100 /\ 0 + 100 <= 100) /\
  px_x p <= naturalWidth img /\ px_y p <= naturalHeight img /\
  px_x p + px_width p <= naturalWidth img + 1 /\
  px_y p + px_height p <= naturalHeight img + 1.
Proof.
  split.
  - repeat split; try reflexivity; try lia; unfold Qle; simpl; lia.
  - apply (pct_rectangle_overhang 5 0 95 100 10 10);
      try reflexivity; try lia; unfold Qle; simpl; lia.
Defined.

(** The bound is attained: x = 5 % and width = 95 % of a 10 pixel wide image
    round to x = 1 and width = 10, one pixel beyond the right edge. *)
Example pct_rectangle_overhang_attained :
  toPixelCrop (pctCrop 5 0 95 100) (mkImg 10 10 0 0 0 0)
  = wholeRect 1 0 10 10.
Proof. reflexivity. Qed.

(** X5. Selecting the whole displayed image, in rendered pixels, selects the
    whole natural image, whatever the display scale. *)
Theorem toPixelCrop_whole_display (nw nh : Z) (img : HTMLImageElement) :
  naturalWidth img = inject_Z nw -> naturalHeight img = inject_Z nh ->
  (1 <= nw)%Z -> (1 <= nh)%Z ->
  0 < renderedW img -> 0 < renderedH img ->
  toPixelCrop (pxCrop 0 0 (renderedW img) (renderedH img)) img
  = wholeRect 0 0 nw nh.
Proof.
  intros EW EH Hnw Hnh HrW HrH.
  unfold toPixelCrop, pxCrop, isPct.
  cbn [crop_unit crop_x crop_y crop_width crop_height nullish0].
  rewrite EW, EH.
  assert (forall n r, Math_round (0 * (n / r)) = inject_Z 0) as H0
    by (intros n r; apply Math_round_of_whole; change (inject_Z 0) with 0; lra).
  assert (forall (n : Z) r, 0 < r ->
            Math_round (r * (inject_Z n / r)) = inject_Z n) as Hfull
    by (intros n r Hr; apply Math_round_of_whole; field; lra).
  rewrite !H0, !Hfull by assumption.
  change 0 with (inject_Z 0). change 1 with (inject_Z 1).
  rewrite !Math_max_inject_Z, !Z.max_r by lia. reflexivity.
Qed.

Lemma toPixelCrop_whole_display_witness :
  let img := mkImg 1000 800 0 0 (1234 # 10) (9872 # 100) in
  (naturalWidth img = inject_Z 1000 /\ naturalHeight img = inject_Z 800 /\
   (1 <= 1000)%Z /\ (1 <= 800)%Z /\ 0 < renderedW img /\ 0 < renderedH img) /\
  toPixelCrop (pxCrop 0 0 (renderedW img) (renderedH img)) img
  = wholeRect 0 0 1000 800.
Proof.
  split.
  - repeat split; try reflexivity; lia.
  - apply toPixelCrop_whole_display; try reflexivity; lia.
Defined.

(** X6. For an image with positive natural and rendered dimensions, the
    rectangle that [toPixelCrop] produces gives [getCroppedBlob] a canvas
    of exactly the size of the rectangle, with no empty side, and
    [drawImage] copies the region from the rectangle's origin to the
    canvas's origin pixel for pixel, without scaling. *)
Theorem getCroppedBlob_canvas (c : Crop) (img : HTMLImageElement) :
  0 < naturalWidth img -> 0 < naturalHeight img ->
  0 < renderedW img -> 0 < renderedH img ->
  let crop := toPixelCrop c img in
  let d := drawImageFor crop in
  (1 <= canvas_width (canvasFor crop) /\ 1 <= canvas_height (canvasFor crop)) /\
  canvas_width (canvasFor crop) = px_width crop /\
  canvas_height (canvasFor crop) = px_height crop /\
  draw_dw d = draw_sw d /\ draw_dh d = draw_sh d /\
  draw_sx d = px_x crop /\ draw_sy d = px_y crop /\
  draw_dx d = 0 /\ draw_dy d = 0.
Proof.
  intros _ _ _ _. cbv zeta.
  split; [split; apply Math_max_l |].
  destruct (toPixelCrop_wholeRect c img) as (x & y & w & h & -> & _ & _ & Hw & Hh).
  unfold drawImageFor, canvasFor, wholeRect.
  cbn [draw_dw draw_dh draw_sw draw_sh draw_sx draw_sy draw_dx draw_dy
       canvas_width canvas_height px_x px_y px_width px_height].
  rewrite !Math_round_whole. change 1 with (inject_Z 1).
  rewrite !Math_max_inject_Z, !Z.max_r by lia.
  repeat split; reflexivity.
Qed.

Lemma getCroppedBlob_canvas_witness :
  let img := mkImg 1000 800 0 0 500 400 in
  let c := pxCrop (21 # 2) (-3) (1 # 10) 100 in
  (0 < naturalWidth img /\ 0 < naturalHeight img /\
   0 < renderedW img /\ 0 < renderedH img) /\
  let crop := toPixelCrop c img in
  let d := drawImageFor crop in
  (1 <= canvas_width (canvasFor crop) /\ 1 <= canvas_height (canvasFor crop)) /\
  canvas_width (canvasFor crop) = px_width crop /\
  canvas_height (canvasFor crop) = px_height crop /\
  draw_dw d = draw_sw d /\ draw_dh d = draw_sh d /\
  draw_sx d = px_x crop /\ draw_sy d = px_y crop /\
  draw_dx d = 0 /\ draw_dy d = 0.
Proof.
  intros img c. split.
  - repeat split; reflexivity.
  - apply (getCroppedBlob_canvas c img); reflexivity.
Defined.

Example getCroppedBlob_canvas_at :
  let crop := toPixelCrop (pxCrop (21 # 2) (-3) (1 # 10) 100)
                (mkImg 1000 800 0 0 500 400) in
  crop = wholeRect 21 0 1 200 /\ canvasFor crop = mkCanvas 1 200.
Proof. split; reflexivity. Qed.

(** A rectangle that did not come from [toPixelCrop] is rounded and clamped
    for the canvas: an empty one still gives a 1 x 1 canvas. *)
Example getCroppedBlob_canvas_empty :
  canvasFor (mkPixelCrop 0 0 0 (5 # 2)) = mkCanvas 1 3.
Proof. reflexivity. Qed.

End CoordinateMapperFacts.

Module SearchClientFacts.
Import DataModel SearchClient.
Local Open Scope string_scope.
Local Open Scope Z_scope.

Lemma ok_status (r : Response) : ok r = true <-> 200 <= status r <= 299.
Proof. unfold ok. rewrite andb_true_iff, !Z.leb_le. reflexivity. Qed.

Lemma ok_not_503 (r : Response) : status r = 503 -> ok r = false.
Proof. intros H. unfold ok. rewrite H. reflexivity. Qed.

Lemma ok_not_404 (r : Response) : status r = 404 -> ok r = false.
Proof. intros H. unfold ok. rewrite H. reflexivity. Qed.

Lemma falsy_resolved (o : option string) :
  falsy o = false <-> exists b, o = Some b /\ b <> "".
Proof.
  unfold falsy. destruct o as [s |].
  - destruct (decide (s = "")) as [-> | Hne].
    + split; [discriminate | intros (b & [= <-] & Hb); contradiction].
    + split; [intros _; exists s; split; [reflexivity | exact Hne] | reflexivity].
  - split; [discriminate | intros (b & Hb & _); discriminate].
Qed.

(** [Hf] and [E] answer the same request: identify the two responses. *)
Ltac same_answer E Hf := rewrite E in Hf; simplify_eq.

(** The log holds one request: the index is 0 and the response is known. *)
Ltac head_only i E Hf :=
  destruct i as [| [| i]]; simplify_eq/=; try (same_answer E Hf);
  try congruence.

Section LoopFacts.
Variable fetch : Request -> FetchOutcome.
Variable base : string.
Variable form : FormData.

Abbreviation loop := (forPaths fetch base form).
Abbreviation req p := (request base p form).

(** One unfolding of the loop body, by the answer to the candidate. *)
Lemma loop_rejected p ps lastText :
  fetch (req p) = Rejected ->
  loop (p :: ps) lastText = mkRun [req p] (Err NetworkError).
Proof. intros E. simpl. rewrite E. reflexivity. Qed.

Lemma loop_ok p ps lastText r :
  fetch (req p) = Resolved r -> ok r = true ->
  loop (p :: ps) lastText
  = mkRun [req p]
      (match json r with Some d => Ok d | None => Err BodyParseError end).
Proof. intros E Hok. simpl. rewrite E, Hok. reflexivity. Qed.

Lemma loop_503 p ps lastText r :
  fetch (req p) = Resolved r -> status r = 503 ->
  loop (p :: ps) lastText = mkRun [req p] (Err ServiceUnavailable).
Proof.
  intros E Hs. simpl. rewrite E, (ok_not_503 r Hs), Hs. reflexivity.
Qed.

Lemma loop_404 p ps lastText r :
  fetch (req p) = Resolved r -> status r = 404 ->
  loop (p :: ps) lastText
  = mkRun (req p :: contacted (loop ps (textOrEmpty r)))
          (outcome (loop ps (textOrEmpty r))).
Proof.
  intros E Hs. simpl. rewrite E, (ok_not_404 r Hs), Hs. reflexivity.
Qed.

Lemma loop_other p ps lastText r :
  fetch (req p) = Resolved r ->
  ok r = false -> status r <> 503 -> status r <> 404 ->
  loop (p :: ps) lastText
  = mkRun [req p]
      (Err (HttpError (status r) (statusText r) (textOrEmpty r))).
Proof.
  intros E Hok H503 H404. simpl. rewrite E, Hok.
  apply Z.eqb_neq in H503, H404. rewrite H503, H404. reflexivity.
Qed.

Lemma answer (p : string) : Answer fetch base form p.
Proof.
  destruct (fetch (req p)) as [| r] eqn:E.
  - exact (AnsRejected fetch base form p E).
  - destruct (ok r) eqn:Hok.
    + exact (AnsOk fetch base form p r E Hok).
    + destruct (decide (status r = 503)) as [H503 | H503].
      * exact (Ans503 fetch base form p r E H503).
      * destruct (decide (status r = 404)) as [H404 | H404].
        -- exact (Ans404 fetch base form p r E H404).
        -- exact (AnsOther fetch base form p r E Hok H503 H404).
Qed.

(** The requests sent are those of a prefix of the candidate list. *)
Lemma contacted_candidate ps lastText i q :
  contacted (loop ps lastText) !! i = Some q ->
  exists p, ps !! i = Some p /\ q = req p.
Proof.
  revert lastText i.
  induction ps as [| p ps IH]; intros lastText i Hc.
  - discriminate Hc.
  - destruct (answer p) as [E | r E Hok | r E Hs | r E Hs | r E Hok H503 H404].
    + rewrite (loop_rejected _ _ _ E) in Hc.
      destruct i as [| [| i]]; simplify_eq/=. eauto.
    + rewrite (loop_ok _ _ _ _ E Hok) in Hc.
      destruct i as [| [| i]]; simplify_eq/=. eauto.
    + rewrite (loop_503 _ _ _ _ E Hs) in Hc.
      destruct i as [| [| i]]; simplify_eq/=. eauto.
    + rewrite (loop_404 _ _ _ _ E Hs) in Hc.
      destruct i as [| i]; simplify_eq/=; [eauto |].
      apply IH in Hc. exact Hc.
    + rewrite (loop_other _ _ _ _ E Hok H503 H404) in Hc.
      destruct i as [| [| i]]; simplify_eq/=. eauto.
Qed.

(** A contacted candidate that answers 503 ends the run. *)
Lemma loop_stops_at_503 ps lastText i q r :
  contacted (loop ps lastText) !! i = Some q ->
  fetch q = Resolved r -> status r = 503 ->
  outcome (loop ps lastText) = Err ServiceUnavailable /\
  length (contacted (loop ps lastText)) = S i.
Proof.
  revert lastText i.
  induction ps as [| p ps IH]; intros lastText i Hc Hf Hst.
  - discriminate Hc.
  - destruct (answer p) as [E | r' E Hok | r' E Hs | r' E Hs | r' E Hok H503 H404].
    + rewrite (loop_rejected _ _ _ E) in Hc |- *.
      head_only i E Hf.
    + rewrite (loop_ok _ _ _ _ E Hok) in Hc |- *.
      head_only i E Hf.
      rewrite (ok_not_503 _ Hst) in Hok. discriminate.
    + rewrite (loop_503 _ _ _ _ E Hs) in Hc |- *.
      head_only i E Hf. split; reflexivity.
    + rewrite (loop_404 _ _ _ _ E Hs) in Hc |- *.
      destruct i as [| i]; simplify_eq/=; [same_answer E Hf; congruence |].
      destruct (IH _ _ Hc Hf Hst) as [Ho Hl].
      split; [exact Ho | rewrite Hl; reflexivity].
    + rewrite (loop_other _ _ _ _ E Hok H503 H404) in Hc |- *.
      head_only i E Hf.
Qed.

(** A contacted candidate that answers with a status outside 2xx, other
    than 503 and 404, ends the run with an [HttpError]. *)
Lemma loop_stops_at_other ps lastText i q r :
  contacted (loop ps lastText) !! i = Some q ->
  fetch q = Resolved r ->
  ok r = false -> status r <> 503 -> status r <> 404 ->
  outcome (loop ps lastText)
  = Err (HttpError (status r) (statusText r) (textOrEmpty r)) /\
  length (contacted (loop ps lastText)) = S i.
Proof.
  revert lastText i.
  induction ps as [| p ps IH]; intros lastText i Hc Hf Hnok Hn503 Hn404.
  - discriminate Hc.
  - destruct (answer p) as [E | r' E Hok | r' E Hs | r' E Hs | r' E Hok H503 H404].
    + rewrite (loop_rejected _ _ _ E) in Hc |- *.
      head_only i E Hf.
    + rewrite (loop_ok _ _ _ _ E Hok) in Hc |- *.
      head_only i E Hf.
    + rewrite (loop_503 _ _ _ _ E Hs) in Hc |- *.
      head_only i E Hf.
    + rewrite (loop_404 _ _ _ _ E Hs) in Hc |- *.
      destruct i as [| i]; simplify_eq/=; [same_answer E Hf; congruence |].
      destruct (IH _ _ Hc Hf Hnok Hn503 Hn404) as [Ho Hl].
      split; [exact Ho | rewrite Hl; reflexivity].
    + rewrite (loop_other _ _ _ _ E Hok H503 H404) in Hc |- *.
      head_only i E Hf. split; reflexivity.
Qed.

(** A contacted candidate that answers 404: its body becomes the last
    diagnostic, and either the next candidate is contacted or, when it was
    the last one, the run ends with [NotFoundError] carrying that body. *)
Lemma loop_continues_at_404 ps lastText i q r :
  contacted (loop ps lastText) !! i = Some q ->
  fetch q = Resolved r -> status r = 404 ->
  match ps !! S i with
  | Some p' => contacted (loop ps lastText) !! S i = Some (req p')
  | None => outcome (loop ps lastText) = Err (NotFoundError (textOrEmpty r))
  end.
Proof.
  revert lastText i.
  induction ps as [| p ps IH]; intros lastText i Hc Hf Hst.
  - discriminate Hc.
  - destruct (answer p) as [E | r' E Hok | r' E Hs | r' E Hs | r' E Hok H503 H404].
    + rewrite (loop_rejected _ _ _ E) in Hc |- *.
      head_only i E Hf.
    + rewrite (loop_ok _ _ _ _ E Hok) in Hc |- *.
      head_only i E Hf.
      rewrite (ok_not_404 _ Hst) in Hok. discriminate.
    + rewrite (loop_503 _ _ _ _ E Hs) in Hc |- *.
      head_only i E Hf.
    + rewrite (loop_404 _ _ _ _ E Hs) in Hc |- *.
      destruct i as [| i].
      * simplify_eq/=. same_answer E Hf. clear IH.
        destruct ps as [| p' ps']; [reflexivity |].
        cbn [lookup list_lookup].
        destruct (answer p') as [E' | ? E' ? | ? E' Hs' | ? E' Hs' | ? E' ? ? ?].
        -- rewrite (loop_rejected _ _ _ E'). reflexivity.
        -- rewrite (loop_ok _ _ _ _ E') by assumption. reflexivity.
        -- rewrite (loop_503 _ _ _ _ E' Hs'). reflexivity.
        -- rewrite (loop_404 _ _ _ _ E' Hs'). reflexivity.
        -- rewrite (loop_other _ _ _ _ E') by assumption. reflexivity.
      * cbn [contacted outcome] in Hc |- *.
        change ((p :: ps) !! S (S i)) with (ps !! S i).
        change ((req p :: contacted (loop ps (textOrEmpty r'))) !! S i)
          with (contacted (loop ps (textOrEmpty r')) !! i) in Hc.
        change ((req p :: contacted (loop ps (textOrEmpty r'))) !! S (S i))
          with (contacted (loop ps (textOrEmpty r')) !! S i).
        exact (IH _ _ Hc Hf Hst).
    + rewrite (loop_other _ _ _ _ E Hok H503 H404) in Hc |- *.
      head_only i E Hf.
Qed.

End LoopFacts.

(** With a usable base address the client is the loop over [paths]. *)
Lemma run_configured env fetch blob base :
  resolveBase env = Some base -> base <> "" ->
  runSearchByUpload env fetch blob
  = forPaths fetch base (buildForm blob) paths "".
Proof.
  intros Hb Hne. unfold runSearchByUpload. rewrite Hb. unfold falsy.
  destruct (decide (base = "")) as [Heq | _]; [contradiction | reflexivity].
Qed.

(** Without one it sends nothing. *)
Lemma run_unconfigured env fetch blob :
  falsy (resolveBase env) = true ->
  runSearchByUpload env fetch blob = mkRun [] (Err ConfigError).
Proof. intros Hf. unfold runSearchByUpload. rewrite Hf. reflexivity. Qed.

(** Every run either has no usable base, or is the loop for its base. *)
Lemma run_cases env fetch blob :
  runSearchByUpload env fetch blob = mkRun [] (Err ConfigError) \/
  exists base, resolveBase env = Some base /\ base <> "" /\
    runSearchByUpload env fetch blob
    = forPaths fetch base (buildForm blob) paths "".
Proof.
  destruct (falsy (resolveBase env)) eqn:Hf.
  - left. apply run_unconfigured, Hf.
  - right. apply falsy_resolved in Hf as (base & Hb & Hne).
    exists base. repeat split; [exact Hb | exact Hne |].
    apply run_configured; assumption.
Qed.

(** Both variables absent: [ConfigError], and no request is sent. *)
Lemma config_absent_fails_before_network fetch blob :
  runSearchByUpload (mkEnv None None) fetch blob = mkRun [] (Err ConfigError).
Proof. reflexivity. Qed.

(** Where the first variable is not the empty string, the base the code
    resolves is the first non-empty value. *)
Lemma resolveBase_first_nonempty env :
  NEXT_PUBLIC_API_BASE env <> Some "" ->
  (if falsy (resolveBase env) then None else resolveBase env)
  = firstNonEmpty env.
Proof.
  destruct env as [[a |] [b |]];
    unfold resolveBase, firstNonEmpty, nonEmpty, falsy;
    cbn [nullish NEXT_PUBLIC_API_BASE NEXT_PUBLIC_BACKEND_URL]; intros Ha;
    repeat case_decide; subst; try reflexivity; congruence.
Qed.

(** C3, at the input where the code departs from it: the first variable is
    set to the empty string and the second to an address.  The first
    non-empty value is the second variable's, but the client fails with
    [ConfigError] and sends nothing. *)
Theorem config_empty_first_shadows_second :
  let env := mkEnv (Some "") (Some "http://localhost:8000") in
  firstNonEmpty env = Some "http://localhost:8000" /\
  forall fetch blob,
    runSearchByUpload env fetch blob = mkRun [] (Err ConfigError).
Proof. split; [reflexivity | intros fetch blob; reflexivity]. Qed.

(** C4. If a candidate endpoint that is contacted responds 503, the search
    fails with [ServiceUnavailable] and that request is the last one sent; in
    particular, when the first candidate responds 503 the run consists of
    that one request. *)
Theorem service_unavailable_short_circuits env fetch blob :
  (forall i q r,
     contacted (runSearchByUpload env fetch blob) !! i = Some q ->
     fetch q = Resolved r -> status r = 503 ->
     outcome (runSearchByUpload env fetch blob) = Err ServiceUnavailable /\
     length (contacted (runSearchByUpload env fetch blob)) = S i) /\
  (forall base r,
     resolveBase env = Some base -> base <> "" ->
     fetch (request base "/search/by-upload" (buildForm blob)) = Resolved r ->
     status r = 503 ->
     runSearchByUpload env fetch blob
     = mkRun [request base "/search/by-upload" (buildForm blob)]
             (Err ServiceUnavailable)).
Proof.
  split.
  - intros i q r Hc Hf Hs.
    destruct (run_cases env fetch blob) as [Hrun | (base & _ & _ & Hrun)];
      rewrite Hrun in Hc |- *.
    + discriminate Hc.
    + eapply loop_stops_at_503; eassumption.
  - intros base r Hb Hne Hf Hs.
    rewrite (run_configured _ _ _ _ Hb Hne). unfold paths.
    apply (loop_503 _ _ _ _ _ _ _ Hf Hs).
Qed.

(** C5. A contacted candidate that responds 404 has its body remembered and
    the next candidate is tried, or, if it was the last, the search fails
    with [NotFoundError] carrying that body; a response outside 2xx that is
    neither 503 nor 404 fails at once with [HttpError] carrying status,
    reason and body; and when both candidates respond 404 the search fails
    with [NotFoundError] carrying the body of the second. *)
Theorem not_found_falls_through env fetch blob :
  (forall i q r,
     contacted (runSearchByUpload env fetch blob) !! i = Some q ->
     fetch q = Resolved r -> status r = 404 ->
     match paths !! S i with
     | Some p' =>
         exists base, resolveBase env = Some base /\
           contacted (runSearchByUpload env fetch blob) !! S i
           = Some (request base p' (buildForm blob))
     | None =>
         outcome (runSearchByUpload env fetch blob)
         = Err (NotFoundError (textOrEmpty r))
     end) /\
  (forall i q r,
     contacted (runSearchByUpload env fetch blob) !! i = Some q ->
     fetch q = Resolved r ->
     ok r = false -> status r <> 503 -> status r <> 404 ->
     outcome (runSearchByUpload env fetch blob)
     = Err (HttpError (status r) (statusText r) (textOrEmpty r)) /\
     length (contacted (runSearchByUpload env fetch blob)) = S i) /\
  (forall base r1 r2,
     resolveBase env = Some base -> base <> "" ->
     fetch (request base "/search/by-upload" (buildForm blob)) = Resolved r1 ->
     status r1 = 404 ->
     fetch (request base "/search/image" (buildForm blob)) = Resolved r2 ->
     status r2 = 404 ->
     runSearchByUpload env fetch blob
     = mkRun [request base "/search/by-upload" (buildForm blob);
              request base "/search/image" (buildForm blob)]
             (Err (NotFoundError (textOrEmpty r2)))).
Proof.
  split; [| split].
  - intros i q r Hc Hf Hs.
    destruct (run_cases env fetch blob) as [Hrun | (base & Hb & _ & Hrun)];
      rewrite Hrun in Hc |- *.
    + discriminate Hc.
    + pose proof (loop_continues_at_404 _ _ _ _ _ _ _ _ Hc Hf Hs) as Hnext.
      destruct (paths !! S i) as [p' |]; [exists base; split |]; assumption.
  - intros i q r Hc Hf Hok H503 H404.
    destruct (run_cases env fetch blob) as [Hrun | (base & _ & _ & Hrun)];
      rewrite Hrun in Hc |- *.
    + discriminate Hc.
    + eapply loop_stops_at_other; eassumption.
  - intros base r1 r2 Hb Hne Hf1 Hs1 Hf2 Hs2.
    rewrite (run_configured _ _ _ _ Hb Hne). unfold paths.
    rewrite (loop_404 _ _ _ _ _ _ _ Hf1 Hs1).
    rewrite (loop_404 _ _ _ _ _ _ _ Hf2 Hs2). reflexivity.
Qed.

Lemma service_unavailable_short_circuits_witness :
  let fetch := backend "http://api"
                 (respond 503 "Service Unavailable" "warming up" None)
                 (respond 200 "OK" "{}" (Some (mkSearchResponse None))) in
  let q := request "http://api" "/search/by-upload" (buildForm "jpeg") in
  let r := mkResponse 503 "Service Unavailable" (Some "warming up") None in
  let run := runSearchByUpload sampleEnv fetch "jpeg" in
  (contacted run !! 0%nat = Some q /\ fetch q = Resolved r /\
   status r = 503 /\ resolveBase sampleEnv = Some "http://api") /\
  (outcome run = Err ServiceUnavailable /\ length (contacted run) = 1%nat) /\
  run = mkRun [q] (Err ServiceUnavailable).
Proof.
  intros fetch q r run. split; [repeat split; reflexivity |]. split.
  - apply (proj1 (service_unavailable_short_circuits sampleEnv fetch "jpeg")
             0%nat q r); reflexivity.
  - apply (proj2 (service_unavailable_short_circuits sampleEnv fetch "jpeg")
             "http://api" r); [reflexivity | discriminate | reflexivity ..].
Defined.

Lemma not_found_falls_through_witness :
  let fetch := backend "http://api"
                 (respond 404 "Not Found" "no such route" None)
                 (respond 404 "Not Found" "still nothing" None) in
  let q1 := request "http://api" "/search/by-upload" (buildForm "jpeg") in
  let q2 := request "http://api" "/search/image" (buildForm "jpeg") in
  let r1 := mkResponse 404 "Not Found" (Some "no such route") None in
  let r2 := mkResponse 404 "Not Found" (Some "still nothing") None in
  let run := runSearchByUpload sampleEnv fetch "jpeg" in
  (resolveBase sampleEnv = Some "http://api" /\
   fetch q1 = Resolved r1 /\ status r1 = 404 /\
   fetch q2 = Resolved r2 /\ status r2 = 404) /\
  run = mkRun [q1; q2] (Err (NotFoundError "still nothing")).
Proof.
  intros fetch q1 q2 r1 r2 run. split; [repeat split; reflexivity |].
  apply (proj2 (proj2 (not_found_falls_through sampleEnv fetch "jpeg"))
           "http://api" r1 r2); [reflexivity | discriminate | reflexivity ..].
Defined.

(** A status that is neither 2xx, 503 nor 404 at the first candidate. *)
Example http_error_scenario :
  runSearchByUpload sampleEnv
    (backend "http://api" (respond 500 "Internal Server Error" "boom" None)
       (respond 200 "OK" "{}" (Some (mkSearchResponse None)))) "jpeg"
  = mkRun [request "http://api" "/search/by-upload" (buildForm "jpeg")]
      (Err (HttpError 500 "Internal Server Error" "boom")).
Proof. reflexivity. Qed.

Example http_error_message :
  message (HttpError 500 "Internal Server Error" "boom")
  = "500 Internal Server Error – boom".
Proof. reflexivity. Qed.

(** The scenario of the spec: candidate 1 answers 404, candidate 2 answers
    200 with one hit; the output is candidate 2's parsed body. *)
Example fallback_scenario :
  let run := runSearchByUpload sampleEnv
    (backend "http://api" (respond 404 "Not Found" "" None)
       (respond 200 "OK" "..." (Some (mkSearchResponse (Some [sampleHit])))))
    "jpeg" in
  outcome run = Ok (mkSearchResponse (Some [sampleHit])) /\
  length (contacted run) = 2%nat.
Proof. split; reflexivity. Qed.

(** A transport failure at the second candidate. *)
Example network_error_scenario :
  outcome (runSearchByUpload sampleEnv
    (backend "http://api" (respond 404 "Not Found" "" None) Rejected) "jpeg")
  = Err NetworkError.
Proof. reflexivity. Qed.

Example topk_field : form_topk (buildForm "jpeg") = "40".
Proof. reflexivity. Qed.

(** *** Further properties of the search client *)

Section LoopRuns.
Variable fetch : Request -> FetchOutcome.
Variable base : string.
Variable form : FormData.

Abbreviation loop := (forPaths fetch base form).
Abbreviation req p := (request base p form).

(** Every request of the loop but the last one was answered 404. *)
Lemma loop_earlier_404 ps lastText i q :
  contacted (loop ps lastText) !! i = Some q ->
  (S i < length (contacted (loop ps lastText)))%nat ->
  exists r, fetch q = Resolved r /\ status r = 404.
Proof.
  revert lastText i.
  induction ps as [| p ps IH]; intros lastText i Hc Hlen.
  - discriminate Hc.
  - destruct (answer fetch base form p)
      as [E | r' E Hok | r' E Hs | r' E Hs | r' E Hok H503 H404].
    + rewrite (loop_rejected _ _ _ _ _ _ E) in Hlen. cbn in Hlen. lia.
    + rewrite (loop_ok _ _ _ _ _ _ _ E Hok) in Hlen. cbn in Hlen. lia.
    + rewrite (loop_503 _ _ _ _ _ _ _ E Hs) in Hlen. cbn in Hlen. lia.
    + rewrite (loop_404 _ _ _ _ _ _ _ E Hs) in Hc, Hlen.
      cbn [contacted] in Hc, Hlen. destruct i as [| i].
      * injection Hc as <-. exists r'. split; assumption.
      * apply (IH (textOrEmpty r') i); [exact Hc | cbn in Hlen; lia].
    + rewrite (loop_other _ _ _ _ _ _ _ E Hok H503 H404) in Hlen.
      cbn in Hlen. lia.
Qed.

(** A loop over at least one candidate sends at least one request, and the
    answer to the last request decides the outcome; it is [NotFoundError]
    only when every candidate was contacted. *)
Lemma loop_last_decides ps lastText :
  ps <> [] ->
  exists q,
    last (contacted (loop ps lastText)) = Some q /\
    decides fetch q
      (bool_decide (length (contacted (loop ps lastText)) = length ps))
      (outcome (loop ps lastText)).
Proof.
  revert lastText.
  induction ps as [| p ps IH]; intros lastText Hne; [contradiction |].
  unfold decides.
  destruct (answer fetch base form p)
    as [E | r' E Hok | r' E Hs | r' E Hs | r' E Hok H503 H404].
  - rewrite (loop_rejected _ _ _ _ _ _ E). exists (req p).
    split; [reflexivity |]. rewrite E. reflexivity.
  - rewrite (loop_ok _ _ _ _ _ _ _ E Hok). exists (req p).
    split; [reflexivity |]. rewrite E, Hok. reflexivity.
  - rewrite (loop_503 _ _ _ _ _ _ _ E Hs). exists (req p).
    split; [reflexivity |]. rewrite E, (ok_not_503 _ Hs), Hs. reflexivity.
  - rewrite (loop_404 _ _ _ _ _ _ _ E Hs). cbn [contacted outcome].
    destruct ps as [| p' ps'].
    + exists (req p). split; [reflexivity |].
      rewrite E, (ok_not_404 _ Hs), Hs. cbn. split; reflexivity.
    + destruct (IH (textOrEmpty r')) as (q & Hlast & Hdec); [discriminate |].
      exists q. split.
      * destruct (contacted (loop (p' :: ps') (textOrEmpty r'))) as [| q0 qs];
          [discriminate Hlast | exact Hlast].
      * unfold decides in Hdec.
        destruct (fetch q) as [| r]; [exact Hdec |].
        destruct (ok r); [exact Hdec |].
        destruct (status r =? 503); [exact Hdec |].
        destruct (negb (status r =? 404)); [exact Hdec |].
        destruct Hdec as [Hout Hall]. split; [exact Hout |].
        apply bool_decide_eq_true in Hall. apply bool_decide_eq_true.
        cbn [length]. rewrite Hall. reflexivity.
  - rewrite (loop_other _ _ _ _ _ _ _ E Hok H503 H404). exists (req p).
    split; [reflexivity |]. rewrite E, Hok.
    apply Z.eqb_neq in H503, H404. rewrite H503, H404. reflexivity.
Qed.

End LoopRuns.

Lemma last_lookup_length {A : Type} (l : list A) (x : A) :
  last l = Some x -> exists i, l !! i = Some x /\ length l = S i.
Proof.
  intros Hl. rewrite last_lookup in Hl.
  destruct l as [| y l]; [discriminate Hl |].
  exists (length l). split; [exact Hl | reflexivity].
Qed.

(** X7. The i-th request of a run goes to the i-th candidate path under the
    configured base address, and carries the payload as [file] and ["40"]
    as [topk]: nothing else is ever contacted, and at most two requests are
    sent. *)
Theorem requests_follow_candidates env fetch blob i q :
  contacted (runSearchByUpload env fetch blob) !! i = Some q ->
  exists base p,
    resolveBase env = Some base /\ base <> "" /\
    paths !! i = Some p /\
    req_url q = base +:+ p /\
    form_file (req_body q) = blob /\ form_topk (req_body q) = "40" /\
    (i < 2)%nat.
Proof.
  intros Hc.
  destruct (run_cases env fetch blob) as [Hrun | (base & Hb & Hne & Hrun)];
    rewrite Hrun in Hc; [discriminate Hc |].
  apply contacted_candidate in Hc as (p & Hp & ->).
  exists base, p. repeat split; try assumption.
  apply lookup_lt_Some in Hp. exact Hp.
Qed.

Lemma requests_follow_candidates_witness :
  let fetch := backend "http://api" (respond 404 "Not Found" "" None)
                 (respond 200 "OK" "{}" (Some (mkSearchResponse None))) in
  let q := request "http://api" "/search/image" (buildForm "jpeg") in
  contacted (runSearchByUpload sampleEnv fetch "jpeg") !! 1%nat = Some q /\
  exists base p,
    resolveBase sampleEnv = Some base /\ base <> "" /\
    paths !! 1%nat = Some p /\
    req_url q = base +:+ p /\
    form_file (req_body q) = "jpeg" /\ form_topk (req_body q) = "40" /\
    (1 < 2)%nat.
Proof.
  intros fetch q. split; [reflexivity |].
  apply (requests_follow_candidates sampleEnv fetch "jpeg" 1 q). reflexivity.
Defined.

(** X8. A contacted candidate that answers with a 2xx status ends the run:
    the result is its parsed body, and no later candidate is contacted. *)
Theorem success_short_circuits env fetch blob i q r :
  contacted (runSearchByUpload env fetch blob) !! i = Some q ->
  fetch q = Resolved r -> ok r = true ->
  outcome (runSearchByUpload env fetch blob)
  = match json r with Some d => Ok d | None => Err BodyParseError end /\
  length (contacted (runSearchByUpload env fetch blob)) = S i.
Proof.
  intros Hc Hf Hok.
  destruct (run_cases env fetch blob) as [Hrun | (base & _ & _ & Hrun)];
    rewrite Hrun in Hc |- *; [discriminate Hc |].
  assert (S i < length (contacted (forPaths fetch base (buildForm blob) paths ""))
          \/ length (contacted (forPaths fetch base (buildForm blob) paths "")) = S i)%nat
    as [Hlt | Hlast] by (apply lookup_lt_Some in Hc; lia).
  - destruct (loop_earlier_404 _ _ _ _ _ _ _ Hc Hlt) as (r' & Hf' & Hs).
    rewrite Hf in Hf'. injection Hf' as <-.
    rewrite (ok_not_404 _ Hs) in Hok. discriminate.
  - split; [| exact Hlast].
    destruct (loop_last_decides fetch base (buildForm blob) paths "")
      as (q' & Hq' & Hdec); [discriminate |].
    apply last_lookup_length in Hq' as (j & Hj & Hlen).
    assert (j = i) as -> by lia. rewrite Hc in Hj. injection Hj as <-.
    unfold decides in Hdec. rewrite Hf, Hok in Hdec. exact Hdec.
Qed.

Lemma success_short_circuits_witness :
  let data := mkSearchResponse (Some [sampleHit]) in
  let fetch := backend "http://api" (respond 200 "OK" "..." (Some data))
                 (respond 503 "Service Unavailable" "" None) in
  let q := request "http://api" "/search/by-upload" (buildForm "jpeg") in
  let r := mkResponse 200 "OK" (Some "...") (Some data) in
  let run := runSearchByUpload sampleEnv fetch "jpeg" in
  (contacted run !! 0%nat = Some q /\ fetch q = Resolved r /\ ok r = true) /\
  outcome run = Ok data /\ length (contacted run) = 1%nat.
Proof.
  intros data fetch q r run. split; [repeat split |].
  apply (success_short_circuits sampleEnv fetch "jpeg" 0 q r); reflexivity.
Defined.

(** X9. A transport failure at a contacted candidate (the [fetch] promise
    rejects, also when the timeout aborts it) ends the run with
    [NetworkError]; no later candidate is contacted. *)
Theorem transport_failure_is_network_error env fetch blob i q :
  contacted (runSearchByUpload env fetch blob) !! i = Some q ->
  fetch q = Rejected ->
  outcome (runSearchByUpload env fetch blob) = Err NetworkError /\
  length (contacted (runSearchByUpload env fetch blob)) = S i.
Proof.
  intros Hc Hf.
  destruct (run_cases env fetch blob) as [Hrun | (base & _ & _ & Hrun)];
    rewrite Hrun in Hc |- *; [discriminate Hc |].
  assert (S i < length (contacted (forPaths fetch base (buildForm blob) paths ""))
          \/ length (contacted (forPaths fetch base (buildForm blob) paths "")) = S i)%nat
    as [Hlt | Hlast] by (apply lookup_lt_Some in Hc; lia).
  - destruct (loop_earlier_404 _ _ _ _ _ _ _ Hc Hlt) as (r' & Hf' & _).
    congruence.
  - split; [| exact Hlast].
    destruct (loop_last_decides fetch base (buildForm blob) paths "")
      as (q' & Hq' & Hdec); [discriminate |].
    apply last_lookup_length in Hq' as (j & Hj & Hlen).
    assert (j = i) as -> by lia. rewrite Hc in Hj. injection Hj as <-.
    unfold decides in Hdec. rewrite Hf in Hdec. exact Hdec.
Qed.

Lemma transport_failure_is_network_error_witness :
  let fetch := backend "http://api" (respond 404 "Not Found" "" None) Rejected in
  let q := request "http://api" "/search/image" (buildForm "jpeg") in
  let run := runSearchByUpload sampleEnv fetch "jpeg" in
  (contacted run !! 1%nat = Some q /\ fetch q = Rejected) /\
  outcome run = Err NetworkError /\ length (contacted run) = 2%nat.
Proof.
  intros fetch q run. split; [repeat split |].
  apply (transport_failure_is_network_error sampleEnv fetch "jpeg" 1 q);
    reflexivity.
Defined.

(** X10. The client falls back only on 404: every request of a run except
    the last one was answered with status 404. *)
Theorem fallback_only_after_404 env fetch blob i q :
  contacted (runSearchByUpload env fetch blob) !! i = Some q ->
  (S i < length (contacted (runSearchByUpload env fetch blob)))%nat ->
  exists r, fetch q = Resolved r /\ status r = 404.
Proof.
  intros Hc Hlt.
  destruct (run_cases env fetch blob) as [Hrun | (base & _ & _ & Hrun)];
    rewrite Hrun in Hc, Hlt; [discriminate Hc |].
  eapply loop_earlier_404; eassumption.
Qed.

Lemma fallback_only_after_404_witness :
  let fetch := backend "http://api" (respond 404 "Not Found" "nope" None)
                 (respond 500 "Internal Server Error" "" None) in
  let q := request "http://api" "/search/by-upload" (buildForm "jpeg") in
  let run := runSearchByUpload sampleEnv fetch "jpeg" in
  (contacted run !! 0%nat = Some q /\ (1 < length (contacted run))%nat) /\
  exists r, fetch q = Resolved r /\ status r = 404.
Proof.
  intros fetch q run.
  assert (1 < length (contacted run))%nat as Hlen
    by (change (1 < 2)%nat; lia).
  split; [split; [reflexivity | exact Hlen] |].
  apply (fallback_only_after_404 sampleEnv fetch "jpeg" 0 q);
    [reflexivity | exact Hlen].
Defined.

(** X11. A run sends no request exactly when it fails with [ConfigError],
    and that is exactly when the resolved base address is missing or
    empty. *)
Theorem no_request_iff_config_error env fetch blob :
  (contacted (runSearchByUpload env fetch blob) = [] <->
   outcome (runSearchByUpload env fetch blob) = Err ConfigError) /\
  (outcome (runSearchByUpload env fetch blob) = Err ConfigError <->
   falsy (resolveBase env) = true).
Proof.
  destruct (falsy (resolveBase env)) eqn:Hf.
  - rewrite (run_unconfigured _ _ _ Hf). cbn. repeat split; reflexivity.
  - apply falsy_resolved in Hf as (base & Hb & Hne).
    rewrite (run_configured _ _ _ _ Hb Hne).
    destruct (loop_last_decides fetch base (buildForm blob) paths "")
      as (q & Hq & Hdec); [discriminate |].
    assert (outcome (forPaths fetch base (buildForm blob) paths "")
            <> Err ConfigError) as Hout.
    { unfold decides in Hdec.
      destruct (fetch q) as [| r]; [congruence |].
      destruct (ok r); [destruct (json r); congruence |].
      destruct (status r =? 503); [congruence |].
      destruct (negb (status r =? 404)); [congruence |].
      destruct Hdec as [-> _]. discriminate. }
    repeat split; intros H; try contradiction; try discriminate.
    rewrite H in Hq. discriminate Hq.
Qed.

(** X12. [NotFoundError] means that both candidates were contacted and both
    answered 404; the diagnostic it carries is the body of the second
    answer. *)
Theorem not_found_means_all_404 env fetch blob lastText :
  outcome (runSearchByUpload env fetch blob) = Err (NotFoundError lastText) ->
  exists base r1 r2,
    resolveBase env = Some base /\
    contacted (runSearchByUpload env fetch blob)
    = [request base "/search/by-upload" (buildForm blob);
       request base "/search/image" (buildForm blob)] /\
    fetch (request base "/search/by-upload" (buildForm blob)) = Resolved r1 /\
    status r1 = 404 /\
    fetch (request base "/search/image" (buildForm blob)) = Resolved r2 /\
    status r2 = 404 /\
    lastText = textOrEmpty r2.
Proof.
  intros Hout.
  destruct (run_cases env fetch blob) as [Hrun | (base & Hb & Hne & Hrun)];
    rewrite Hrun in Hout |- *; [discriminate Hout |].
  unfold paths in *.
  destruct (answer fetch base (buildForm blob) "/search/by-upload")
    as [E | r1 E Hok | r1 E Hs | r1 E Hs | r1 E Hok H503 H404].
  - rewrite (loop_rejected _ _ _ _ _ _ E) in Hout. discriminate.
  - rewrite (loop_ok _ _ _ _ _ _ _ E Hok) in Hout.
    cbn in Hout. destruct (json r1); discriminate.
  - rewrite (loop_503 _ _ _ _ _ _ _ E Hs) in Hout. discriminate.
  - rewrite (loop_404 _ _ _ _ _ _ _ E Hs) in Hout |- *.
    cbn [outcome contacted] in Hout |- *.
    destruct (answer fetch base (buildForm blob) "/search/image")
      as [E2 | r2 E2 Hok2 | r2 E2 Hs2 | r2 E2 Hs2 | r2 E2 Hok2 H5032 H4042].
    + rewrite (loop_rejected _ _ _ _ _ _ E2) in Hout. discriminate.
    + rewrite (loop_ok _ _ _ _ _ _ _ E2 Hok2) in Hout.
      cbn in Hout. destruct (json r2); discriminate.
    + rewrite (loop_503 _ _ _ _ _ _ _ E2 Hs2) in Hout. discriminate.
    + rewrite (loop_404 _ _ _ _ _ _ _ E2 Hs2) in Hout |- *.
      cbn in Hout. injection Hout as <-.
      exists base, r1, r2. repeat split; assumption.
    + rewrite (loop_other _ _ _ _ _ _ _ E2 Hok2 H5032 H4042) in Hout.
      discriminate.
  - rewrite (loop_other _ _ _ _ _ _ _ E Hok H503 H404) in Hout. discriminate.
Qed.

Lemma not_found_means_all_404_witness :
  let fetch := backend "http://api" (respond 404 "Not Found" "first" None)
                 (respond 404 "Not Found" "second" None) in
  outcome (runSearchByUpload sampleEnv fetch "jpeg")
  = Err (NotFoundError "second") /\
  exists base r1 r2,
    resolveBase sampleEnv = Some base /\
    contacted (runSearchByUpload sampleEnv fetch "jpeg")
    = [request base "/search/by-upload" (buildForm "jpeg");
       request base "/search/image" (buildForm "jpeg")] /\
    fetch (request base "/search/by-upload" (buildForm "jpeg")) = Resolved r1 /\
    status r1 = 404 /\
    fetch (request base "/search/image" (buildForm "jpeg")) = Resolved r2 /\
    status r2 = 404 /\
    "second" = textOrEmpty r2.
Proof.
  intros fetch. split; [reflexivity |].
  apply (not_found_means_all_404 sampleEnv fetch "jpeg" "second"). reflexivity.
Defined.

(** X13. A run that returns data got it from the last request it sent: that
    request was answered with a 2xx status and a body that parses to the
    data. *)
Theorem data_comes_from_last_answer env fetch blob data :
  outcome (runSearchByUpload env fetch blob) = Ok data ->
  exists q r,
    last (contacted (runSearchByUpload env fetch blob)) = Some q /\
    fetch q = Resolved r /\ ok r = true /\ json r = Some data.
Proof.
  intros Hout.
  destruct (run_cases env fetch blob) as [Hrun | (base & _ & _ & Hrun)];
    rewrite Hrun in Hout |- *; [discriminate Hout |].
  destruct (loop_last_decides fetch base (buildForm blob) paths "")
    as (q & Hq & Hdec); [discriminate |].
  exists q. unfold decides in Hdec. rewrite Hout in Hdec.
  destruct (fetch q) as [| r]; [discriminate Hdec |].
  exists r. destruct (ok r).
  - destruct (json r) as [d |]; [| discriminate Hdec].
    injection Hdec as ->. repeat split; assumption.
  - destruct (status r =? 503); [discriminate Hdec |].
    destruct (negb (status r =? 404)); [discriminate Hdec |].
    destruct Hdec as [Hdec _]. discriminate Hdec.
Qed.

Lemma data_comes_from_last_answer_witness :
  let data := mkSearchResponse (Some [sampleHit]) in
  let fetch := backend "http://api" (respond 404 "Not Found" "" None)
                 (respond 200 "OK" "..." (Some data)) in
  outcome (runSearchByUpload sampleEnv fetch "jpeg") = Ok data /\
  exists q r,
    last (contacted (runSearchByUpload sampleEnv fetch "jpeg")) = Some q /\
    fetch q = Resolved r /\ ok r = true /\ json r = Some data.
Proof.
  intros data fetch. split; [reflexivity |].
  apply (data_comes_from_last_answer sampleEnv fetch "jpeg" data). reflexivity.
Defined.

End SearchClientFacts.

Module ResultPipelineFacts.
Import DataModel ResultPipeline.
Local Open Scope string_scope.

(** *** Dedupe *)

Lemma same_triple_same_id (a b : Hit) : tripleOf a = tripleOf b -> idOf a = idOf b.
Proof. unfold tripleOf, idOf. intros [= -> -> ->]. reflexivity. Qed.

(** Every hit that survives was in the input and its key was not yet seen. *)
Lemma dedupeFrom_elem seen hs h :
  h ∈ dedupeFrom seen hs -> h ∈ hs /\ idOf h ∉ seen.
Proof.
  revert seen. induction hs as [| x hs IH]; intros seen Hin; simpl in Hin.
  - inversion Hin.
  - destruct (decide (idOf x ∈ seen)) as [Hseen | Hnew].
    + destruct (IH _ Hin) as [Hin' Hk].
      split; [right; exact Hin' | exact Hk].
    + apply elem_of_cons in Hin as [-> | Hin].
      * split; [left | exact Hnew].
      * destruct (IH _ Hin) as [Hin' Hk].
        split; [right; exact Hin' |].
        intros Hs. apply Hk, elem_of_union. right. exact Hs.
Qed.

(** The surviving hits have pairwise different keys. *)
Lemma dedupeFrom_NoDup seen hs : NoDup (idOf <$> dedupeFrom seen hs).
Proof.
  revert seen. induction hs as [| x hs IH]; intros seen; simpl.
  - constructor.
  - destruct (decide (idOf x ∈ seen)) as [Hseen | Hnew]; [apply IH |].
    rewrite fmap_cons. constructor; [| apply IH].
    intros Hin. apply list_elem_of_fmap in Hin as (h & Heq & Hin).
    apply dedupeFrom_elem in Hin as [_ Hk]. rewrite <- Heq in Hk.
    apply Hk, elem_of_union. left. apply elem_of_singleton. reflexivity.
Qed.

(** They are a sub-sequence of the input: the input order is kept. *)
Lemma dedupeFrom_sublist seen hs : sublist (dedupeFrom seen hs) hs.
Proof.
  revert seen. induction hs as [| x hs IH]; intros seen; simpl.
  - constructor.
  - destruct (decide (idOf x ∈ seen)).
    + apply sublist_cons, IH.
    + apply sublist_skip, IH.
Qed.

(** The first hit with a given key survives. *)
Lemma dedupeFrom_first seen pre h post :
  idOf h ∉ seen -> idOf h ∉ (idOf <$> pre) ->
  h ∈ dedupeFrom seen (pre ++ h :: post).
Proof.
  revert seen. induction pre as [| x pre IH]; intros seen Hseen Hpre; simpl.
  - destruct (decide (idOf h ∈ seen)); [contradiction | left].
  - rewrite fmap_cons in Hpre. apply not_elem_of_cons in Hpre as [Hne Hpre].
    destruct (decide (idOf x ∈ seen)).
    + apply IH; assumption.
    + right. apply IH; [| assumption].
      intros Hu. apply elem_of_union in Hu as [Hu | Hu]; [| contradiction].
      apply elem_of_singleton in Hu. contradiction.
Qed.

(** A list whose keys are new and pairwise different is left as it is. *)
Lemma dedupeFrom_fixed seen hs :
  NoDup (idOf <$> hs) -> (forall h, h ∈ hs -> idOf h ∉ seen) ->
  dedupeFrom seen hs = hs.
Proof.
  revert seen. induction hs as [| x hs IH]; intros seen Hnd Hnew; simpl.
  - reflexivity.
  - rewrite fmap_cons in Hnd. apply NoDup_cons in Hnd as [Hx Hnd].
    destruct (decide (idOf x ∈ seen)) as [Hseen | _].
    + exfalso. apply (Hnew x); [left | exact Hseen].
    + f_equal. apply IH; [exact Hnd |].
      intros h Hh Hin. apply elem_of_union in Hin as [Hin | Hin].
      * apply elem_of_singleton in Hin. apply Hx. rewrite <- Hin.
        apply list_elem_of_fmap. exists h. split; [reflexivity | exact Hh].
      * apply (Hnew h); [right; exact Hh | exact Hin].
Qed.

(** X14. Dedupe is idempotent: applied to its own output it changes
    nothing. *)
Lemma dedupedResults_idempotent results :
  dedupedResults (dedupedResults results) = dedupedResults results.
Proof.
  unfold dedupedResults. apply dedupeFrom_fixed.
  - apply dedupeFrom_NoDup.
  - intros h _. apply not_elem_of_empty.
Qed.

(** Hits that agree on the triple are conflated: only one of them is kept. *)
Lemma dedupedResults_conflates_equal_triples results a b :
  a ∈ dedupedResults results -> b ∈ dedupedResults results ->
  tripleOf a = tripleOf b -> a = b.
Proof.
  intros Ha Hb Ht. apply same_triple_same_id in Ht.
  pose proof (dedupeFrom_NoDup ∅ results) as Hnd.
  fold (dedupedResults results) in Hnd.
  apply list_elem_of_lookup in Ha as [i Hi].
  apply list_elem_of_lookup in Hb as [j Hj].
  assert (i = j) as ->.
  { eapply NoDup_lookup; [exact Hnd | |];
      rewrite list_lookup_fmap; [rewrite Hi | rewrite Hj]; simpl;
      [reflexivity | rewrite Ht; reflexivity]. }
  congruence.
Qed.

(** C6, at the input where the code departs from it.  The key is the three
    parts joined by ["-"], and the parts may themselves hold ["-"]: two hits
    with different triples can have the same key, and the second is
    dropped. *)
Theorem dedupe_conflates_distinct_triples :
  let h1 := keyed 1 (Some "a-b") (Some "c") in
  let h2 := keyed 1 (Some "a") (Some "b-c") in
  tripleOf h1 <> tripleOf h2 /\
  idOf h1 = idOf h2 /\
  dedupedResults [h1; h2] = [h1].
Proof.
  intros h1 h2. split; [discriminate |]. split; [reflexivity |].
  vm_compute. reflexivity.
Qed.

(** *** Sort *)

Lemma signOf_Fin_sub (x y : Q) : signOf (Fin (x - y)) <> Gt <-> (x <= y)%Q.
Proof.
  cbn [signOf]. rewrite <- Qle_alt. split; intros H; lra.
Qed.

(** On numbers other than [NaN], a difference is not positive exactly when
    the operands are in order. *)
Lemma signOf_xsub (a b : xnum) :
  a <> NaN -> b <> NaN -> (signOf (xsub a b) <> Gt <-> xleb a b = true).
Proof.
  intros Ha Hb.
  destruct a as [x | | |], b as [y | | |]; try contradiction;
    cbn [xsub xleb]; try (cbn [signOf]; split; congruence).
  rewrite signOf_Fin_sub.
  destruct (Qle_bool x y) eqn:E.
  - apply Qle_bool_iff in E. split; [reflexivity | intros _; exact E].
  - split; [| discriminate]. intros H. apply Qle_bool_iff in H. congruence.
Qed.

Lemma xleb_trans (a b c : xnum) :
  xleb a b = true -> xleb b c = true -> xleb a c = true.
Proof.
  destruct a as [x | | |], b as [y | | |], c as [z | | |];
    cbn [xleb]; try congruence.
  destruct (Qle_bool x y) eqn:E1; [| discriminate].
  destruct (Qle_bool y z) eqn:E2; [| discriminate].
  intros _ _. apply Qle_bool_iff in E1, E2.
  assert (Qle_bool x z = true) as -> by (apply Qle_bool_iff; lra).
  reflexivity.
Qed.

Lemma xleb_total (a b : xnum) :
  a <> NaN -> b <> NaN -> xleb a b = true \/ xleb b a = true.
Proof.
  intros Ha Hb.
  destruct a as [x | | |], b as [y | | |]; try contradiction;
    cbn [xleb]; auto.
  destruct (Qle_bool x y) eqn:E1; [left; reflexivity | right].
  assert (Qle_bool y x = true) as ->; [| reflexivity].
  apply Qle_bool_iff. destruct (Qlt_le_dec y x) as [Hlt | Hle]; [lra |].
  apply Qle_bool_iff in Hle. congruence.
Qed.

Lemma priceOr_number (d : xnum) (h : Hit) : d <> NaN -> priceOr d h <> NaN.
Proof.
  intros Hd. unfold priceOr.
  destruct (price h) as [[q | |] |]; first [discriminate | exact Hd].
Qed.

Lemma scoreOr0_number (h : Hit) : scoreOr0 h <> NaN.
Proof. unfold scoreOr0. destruct (score h); discriminate. Qed.

Section SortFacts.
Context {A : Type}.
Variable comparefn : A -> A -> xnum.

Lemma insertSorted_perm x l : insertSorted comparefn x l ≡ₚ x :: l.
Proof.
  induction l as [| y l IH]; simpl; [reflexivity |].
  destruct (signOf (comparefn x y)); try reflexivity.
  rewrite IH. apply Permutation_swap.
Qed.

(** The sorted array holds the elements of the input. *)
Lemma Array_sort_perm l : Array_sort comparefn l ≡ₚ l.
Proof.
  induction l as [| x l IH]; simpl; [reflexivity |].
  rewrite insertSorted_perm, IH. reflexivity.
Qed.

(** A consistent comparator: its order is transitive, and of two elements
    one may stand in front of the other. *)
Hypothesis inOrder_trans :
  forall a b c, inOrder comparefn a b -> inOrder comparefn b c ->
                inOrder comparefn a c.
Hypothesis inOrder_total :
  forall a b, signOf (comparefn a b) = Gt -> inOrder comparefn b a.

Lemma insertSorted_sorted x l :
  StronglySorted (inOrder comparefn) l ->
  StronglySorted (inOrder comparefn) (insertSorted comparefn x l).
Proof.
  induction 1 as [| y l Hl IH Hy]; simpl.
  - repeat constructor.
  - destruct (signOf (comparefn x y)) eqn:E.
    + apply StronglySorted_cons. split; [| constructor; assumption].
      assert (inOrder comparefn x y) as Hxy by (unfold inOrder; congruence).
      constructor; [exact Hxy |].
      eapply Forall_impl; [exact Hy |]. intros z Hz.
      exact (inOrder_trans _ _ _ Hxy Hz).
    + apply StronglySorted_cons. split; [| constructor; assumption].
      assert (inOrder comparefn x y) as Hxy by (unfold inOrder; congruence).
      constructor; [exact Hxy |].
      eapply Forall_impl; [exact Hy |]. intros z Hz.
      exact (inOrder_trans _ _ _ Hxy Hz).
    + apply StronglySorted_cons. split; [| exact IH].
      rewrite insertSorted_perm. constructor; [| exact Hy].
      apply inOrder_total, E.
Qed.

(** The sorted array is in order. *)
Lemma Array_sort_sorted l :
  StronglySorted (inOrder comparefn) (Array_sort comparefn l).
Proof.
  induction l as [| x l IH]; simpl; [constructor |].
  apply insertSorted_sorted, IH.
Qed.
End SortFacts.

(** In an array in order, an element at a smaller index may stand in front
    of one at a larger index. *)
Lemma StronglySorted_lookup {A : Type} (R : A -> A -> Prop) l i j a b :
  StronglySorted R l -> l !! i = Some a -> l !! j = Some b ->
  (i < j)%nat -> R a b.
Proof.
  intros Hs. revert i j. induction Hs as [| x l Hl IH Hx]; intros i j Hi Hj Hlt.
  - discriminate Hi.
  - destruct j as [| j]; [lia |]. cbn in Hj.
    destruct i as [| i]; cbn in Hi.
    + injection Hi as <-. rewrite Forall_forall in Hx.
      apply Hx. eapply list_elem_of_lookup_2, Hj.
    + apply (IH i j); [assumption .. | lia].
Qed.

Lemma sortedResults_Array_sort sortBy hs :
  sortBy <> relevance ->
  sortedResults sortBy hs = Array_sort (comparatorOf sortBy) hs.
Proof. destruct sortBy; [contradiction | reflexivity ..]. Qed.

Lemma price_inOrder sortBy a b :
  sortBy = priceAsc \/ sortBy = priceDesc ->
  inOrder (comparatorOf sortBy) a b <-> priceOrder sortBy a b = true.
Proof.
  intros [-> | ->]; unfold inOrder; cbn [comparatorOf priceOrder];
    apply signOf_xsub; apply priceOr_number; discriminate.
Qed.

Lemma priceOrder_trans sortBy a b c :
  priceOrder sortBy a b = true -> priceOrder sortBy b c = true ->
  priceOrder sortBy a c = true.
Proof.
  destruct sortBy; cbn [priceOrder]; intros H1 H2;
    eauto using xleb_trans.
Qed.

Lemma priceOrder_total sortBy a b :
  priceOrder sortBy a b = true \/ priceOrder sortBy b a = true.
Proof.
  destruct sortBy; cbn [priceOrder];
    apply xleb_total; apply priceOr_number; discriminate.
Qed.

Lemma price_inOrder_trans sortBy a b c :
  sortBy = priceAsc \/ sortBy = priceDesc ->
  inOrder (comparatorOf sortBy) a b -> inOrder (comparatorOf sortBy) b c ->
  inOrder (comparatorOf sortBy) a c.
Proof.
  intros Hk. rewrite !(price_inOrder sortBy) by exact Hk.
  apply priceOrder_trans.
Qed.

Lemma price_inOrder_total sortBy a b :
  sortBy = priceAsc \/ sortBy = priceDesc ->
  signOf (comparatorOf sortBy a b) = Gt -> inOrder (comparatorOf sortBy) b a.
Proof.
  intros Hk Hgt.
  assert (~ inOrder (comparatorOf sortBy) a b) as Hn
    by (unfold inOrder; intros H; apply H, Hgt).
  rewrite (price_inOrder sortBy) in Hn |- * by exact Hk.
  destruct (priceOrder_total sortBy a b) as [H | H];
    [contradiction | exact H].
Qed.

(** A hit without a price may not stand in front of a hit whose price does
    not tie with a missing one. *)
Lemma priceless_not_before_priced sortBy a b n :
  sortBy = priceAsc \/ sortBy = priceDesc ->
  price a = None -> price b = Some n -> tiesWithMissing sortBy n = false ->
  ~ inOrder (comparatorOf sortBy) a b.
Proof.
  intros Hk Ha Hb Hn. rewrite (price_inOrder sortBy) by exact Hk.
  destruct Hk as [-> | ->]; unfold priceOrder, priceOr; rewrite Ha, Hb;
    destruct n; cbn in Hn |- *; congruence.
Qed.

(** Two hits at the far end of a price order compare equal. *)
Lemma atMissingEnd_tie sortBy x y :
  sortBy = priceAsc \/ sortBy = priceDesc ->
  atMissingEnd sortBy x = true -> atMissingEnd sortBy y = true ->
  signOf (comparatorOf sortBy x y) <> Gt.
Proof.
  intros Hk Hx Hy. unfold atMissingEnd in Hx, Hy.
  destruct Hk as [-> | ->]; cbn [comparatorOf]; unfold priceOr;
    destruct (price x) as [[| |] |], (price y) as [[| |] |];
    cbn in Hx, Hy |- *; congruence.
Qed.

Section ClassKept.
Context {A : Type}.
Variable comparefn : A -> A -> xnum.
Variable inClass : A -> bool.
Hypothesis class_ties :
  forall x y, inClass x = true -> inClass y = true ->
              signOf (comparefn x y) <> Gt.

(** Elements that never compare greater than each other keep their order
    when one more element is inserted, and so through the whole sort. *)
Lemma insertSorted_keeps_class x l :
  filter (fun h => inClass h = true) (insertSorted comparefn x l)
  = filter (fun h => inClass h = true) (x :: l).
Proof.
  induction l as [| y l IH]; [reflexivity |].
  cbn [insertSorted].
  destruct (signOf (comparefn x y)) eqn:E; try reflexivity.
  rewrite filter_cons, IH, !filter_cons.
  destruct (decide (inClass y = true)) as [Hy | Hy];
    destruct (decide (inClass x = true)) as [Hx | Hx];
    try reflexivity.
  exfalso. exact (class_ties x y Hx Hy E).
Qed.

Lemma Array_sort_keeps_class l :
  filter (fun h => inClass h = true) (Array_sort comparefn l)
  = filter (fun h => inClass h = true) l.
Proof.
  induction l as [| x l IH]; [reflexivity |].
  cbn [Array_sort foldr]. rewrite insertSorted_keeps_class.
  rewrite !filter_cons. fold (Array_sort comparefn l). rewrite IH. reflexivity.
Qed.
End ClassKept.

(** C7, as amended.  Under [priceAsc] and under [priceDesc] the sorted
    sequence is a permutation of the input in which every hit without a
    price stands behind every hit that has a price, except a price that
    ties with a missing one ([Infinity] ascending, [-Infinity] descending);
    hits without a price and hits with such a price keep the order of the
    input. *)
Theorem priceless_sorted_behind sortBy (hs : list Hit) :
  sortBy = priceAsc \/ sortBy = priceDesc ->
  pricelessAfterPriced sortBy hs.
Proof.
  intros Hk.
  assert (sortBy <> relevance) as Hne by (destruct Hk as [-> | ->]; discriminate).
  unfold pricelessAfterPriced. rewrite sortedResults_Array_sort by exact Hne.
  split; [apply Array_sort_perm |]. split.
  - intros i j a b n Hi Hj Ha Hb Hn.
    destruct (Nat.lt_trichotomy i j) as [Hlt | [-> | Hgt]]; [| | exact Hgt].
    + exfalso. apply (priceless_not_before_priced sortBy a b n Hk Ha Hb Hn).
      eapply StronglySorted_lookup; [| exact Hi | exact Hj | exact Hlt].
      apply Array_sort_sorted.
      * intros x y z. apply price_inOrder_trans, Hk.
      * intros x y. apply price_inOrder_total, Hk.
    + congruence.
  - apply Array_sort_keeps_class.
    intros x y. apply atMissingEnd_tie, Hk.
Qed.

Lemma priceless_sorted_behind_witness :
  let hs := [priced 1 None; pricedAt 2 PlusInfinity; priced 3 (Some 20%Q);
             pricedAt 4 MinusInfinity; priced 5 None; priced 6 (Some 10%Q)] in
  (priceAsc = priceAsc \/ priceAsc = priceDesc) /\
  pricelessAfterPriced priceAsc hs.
Proof.
  intros hs. split; [left; reflexivity |].
  apply (priceless_sorted_behind priceAsc hs). left. reflexivity.
Defined.

(** C7 as the spec words it fails: a hit whose price is [Infinity] (the JSON
    literal [1e999]) has a price, but under [priceAsc] it compares equal to
    a hit without one, and the sort leaves the hit without a price in front
    of it. *)
Lemma priceless_before_infinite_price :
  let hs := [priced 1 None; pricedAt 2 PlusInfinity] in
  sortedResults priceAsc hs = [priced 1 None; pricedAt 2 PlusInfinity] /\
  ~ pricelessLast (sortedResults priceAsc hs).
Proof.
  intros hs. split; [reflexivity |]. intros H.
  specialize (H 0%nat 1%nat (priced 1 None) (pricedAt 2 PlusInfinity)
                eq_refl eq_refl eq_refl).
  assert (1 < 0)%nat as Hlt by (apply H; discriminate).
  lia.
Qed.

(** The same under [priceDesc], with the price [-Infinity]. *)
Example priceless_before_minus_infinite_price :
  ~ pricelessLast
      (sortedResults priceDesc [priced 1 None; pricedAt 2 MinusInfinity]).
Proof.
  intros H.
  specialize (H 0%nat 1%nat (priced 1 None) (pricedAt 2 MinusInfinity)
                eq_refl eq_refl eq_refl).
  assert (1 < 0)%nat as Hlt by (apply H; discriminate).
  lia.
Qed.

Example sort_priceAsc_infinite :
  sortedResults priceAsc
    [priced 1 None; pricedAt 2 PlusInfinity; priced 3 (Some 20%Q);
     pricedAt 4 MinusInfinity; priced 5 None; priced 6 (Some 10%Q)]
  = [pricedAt 4 MinusInfinity; priced 6 (Some 10%Q); priced 3 (Some 20%Q);
     priced 1 None; pricedAt 2 PlusInfinity; priced 5 None].
Proof. reflexivity. Qed.

Example sort_priceAsc :
  sortedResults priceAsc
    [priced 1 None; priced 2 (Some 20%Q); priced 3 None; priced 4 (Some 10%Q)]
  = [priced 4 (Some 10%Q); priced 2 (Some 20%Q); priced 1 None; priced 3 None].
Proof. reflexivity. Qed.

(** Hits that compare equal keep their input order. *)
Example sort_stable :
  sortedResults priceAsc
    [priced 1 (Some 5%Q); priced 2 None; priced 3 (Some 5%Q); priced 4 None;
     priced 5 (Some (10 # 2))]
  = [priced 1 (Some 5%Q); priced 3 (Some 5%Q); priced 5 (Some (10 # 2));
     priced 2 None; priced 4 None].
Proof. reflexivity. Qed.

Example sort_priceDesc :
  sortedResults priceDesc
    [priced 1 None; priced 2 (Some 20%Q); priced 3 None; priced 4 (Some 30%Q)]
  = [priced 4 (Some 30%Q); priced 2 (Some 20%Q); priced 1 None; priced 3 None].
Proof. reflexivity. Qed.

(** *** Filter *)

Lemma trimStart_allWhiteSpace s : allWhiteSpace s -> trimStart s = "".
Proof.
  unfold allWhiteSpace. induction s as [| c s IH]; intros Hs; simpl in *.
  - reflexivity.
  - apply Forall_cons in Hs as [Hc Hs]. rewrite Hc. apply IH, Hs.
Qed.

Lemma trim_allWhiteSpace s : allWhiteSpace s -> trim s = "".
Proof. intros Hs. unfold trim. rewrite trimStart_allWhiteSpace by exact Hs. reflexivity. Qed.

Lemma flagOf_default k : flagOf defaultLabelFilter k = true.
Proof. destruct k; reflexivity. Qed.

(** In the default state every hit passes. *)
Lemma passes_default parseFloat st r :
  labelFilter st = defaultLabelFilter ->
  priceMin st = "" -> priceMax st = "" -> allWhiteSpace (merchantSearch st) ->
  passes parseFloat st r = true.
Proof.
  intros Hl Hmin Hmax Hm. unfold passes.
  rewrite Hl, Hmin, Hmax, (trim_allWhiteSpace _ Hm), flagOf_default.
  reflexivity.
Qed.

(** C8. With all three bucket flags true, no minimum price, no maximum
    price, and an empty or all-white-space merchant query, the filter
    returns the sorted sequence unchanged. *)
Theorem filter_default_unchanged parseFloat st (sorted : list Hit) :
  labelFilter st = defaultLabelFilter ->
  priceMin st = "" -> priceMax st = "" -> allWhiteSpace (merchantSearch st) ->
  filteredResults parseFloat st sorted = sorted.
Proof.
  intros Hl Hmin Hmax Hm. unfold filteredResults.
  induction sorted as [| r sorted IH]; [reflexivity |].
  rewrite filter_cons_True by (apply passes_default; assumption).
  rewrite IH. reflexivity.
Qed.

Lemma filter_default_unchanged_witness :
  let st := mkFilterState defaultLabelFilter "" "" "  " in
  let sorted := [priced 1 None; priced 2 (Some 20%Q)] in
  (labelFilter st = defaultLabelFilter /\ priceMin st = "" /\
   priceMax st = "" /\ allWhiteSpace (merchantSearch st)) /\
  filteredResults (fun _ => NaN) st sorted = sorted.
Proof.
  intros st sorted.
  assert (allWhiteSpace (merchantSearch st)) as Hws
    by (repeat constructor).
  split; [repeat split; exact Hws |].
  apply (filter_default_unchanged (fun _ => NaN) st sorted);
    [reflexivity | reflexivity | reflexivity | exact Hws].
Defined.

(** [trim] removes the white space of Unicode on both sides, not only
    that of ASCII, and keeps what is inside. *)
Example trim_unicode_white_space :
  trim nbsp = "" /\ trim ideographicSpace = "" /\
  trim (nbsp +:+ " Zalando" +:+ ideographicSpace +:+ " ") = "Zalando" /\
  trim (" About" +:+ nbsp +:+ "You ") = "About" +:+ nbsp +:+ "You".
Proof. repeat split. Qed.

(** The same for every query that [trim] empties, such as one of
    no-break spaces. *)
Lemma filter_blank_query_unchanged parseFloat st (sorted : list Hit) :
  labelFilter st = defaultLabelFilter ->
  priceMin st = "" -> priceMax st = "" -> trim (merchantSearch st) = "" ->
  filteredResults parseFloat st sorted = sorted.
Proof.
  intros Hl Hmin Hmax Hm. unfold filteredResults.
  induction sorted as [| r sorted IH]; [reflexivity |].
  rewrite filter_cons_True.
  - rewrite IH. reflexivity.
  - unfold passes. rewrite Hl, Hmin, Hmax, Hm, flagOf_default. reflexivity.
Qed.

Example filter_nbsp_query_unchanged :
  let st := mkFilterState defaultLabelFilter "" "" (nbsp +:+ nbsp) in
  filteredResults (fun _ => NaN) st [priced 1 None; priced 2 (Some 20%Q)]
  = [priced 1 None; priced 2 (Some 20%Q)].
Proof. reflexivity. Qed.

(** The bounds do act outside the default state: a maximum keeps the hits
    without a price, a minimum as well. *)
Example filter_max_keeps_priceless :
  filteredResults (fun _ => Fin 15) (mkFilterState defaultLabelFilter "" "15" "")
    [priced 1 None; priced 2 (Some 20%Q); priced 3 (Some 10%Q)]
  = [priced 1 None; priced 3 (Some 10%Q)].
Proof. reflexivity. Qed.

(** C10. Bucket normalization recognizes the two label strings ["Exact"]
    and ["Sehr ähnlich"] and nothing else: every other label, also
    ["VerySimilar"], another casing, or an absent label, is [Alternative]. *)
Theorem normalizeBucket_exact_labels_only (lbl : option string) :
  (normalizeBucket lbl = Exact <-> lbl = Some "Exact") /\
  (normalizeBucket lbl = SehrAehnlich <-> lbl = Some "Sehr ähnlich") /\
  (normalizeBucket lbl = Alternative <->
   lbl <> Some "Exact" /\ lbl <> Some "Sehr ähnlich") /\
  normalizeBucket (Some "VerySimilar") = Alternative /\
  normalizeBucket (Some "exact") = Alternative /\
  normalizeBucket (Some "EXACT") = Alternative /\
  normalizeBucket (Some "sehr ähnlich") = Alternative /\
  normalizeBucket (Some "Sehr aehnlich") = Alternative /\
  normalizeBucket (Some "Exact ") = Alternative /\
  normalizeBucket (Some "Alternative") = Alternative /\
  normalizeBucket (Some "") = Alternative /\
  normalizeBucket None = Alternative.
Proof.
  split; [| split; [| split; [| repeat split; reflexivity]]];
    unfold normalizeBucket;
    destruct (decide (lbl = Some "Exact")) as [-> | H1];
    try destruct (decide (Some "Exact" = Some "Sehr ähnlich")) as [? | ?];
    try destruct (decide (lbl = Some "Sehr ähnlich")) as [-> | H2];
    split; intros H; try discriminate; try reflexivity; try congruence;
    try (split; assumption); try (destruct H; congruence).
Qed.

(** *** Paginate *)

(** For a cursor that is not negative the visible slice is the first
    [visibleCount] hits. *)
Lemma visibleResults_take (c : Z) (filtered : list Hit) :
  (0 <= c)%Z -> visibleResults c filtered = take (Z.to_nat c) filtered.
Proof.
  intros Hc. unfold visibleResults, slice.
  change (0 <? 0)%Z with false. cbv iota.
  assert ((c <? 0)%Z = false) as -> by (apply Z.ltb_ge; exact Hc).
  rewrite (Z.min_l 0) by lia. change (Z.to_nat 0) with 0%nat.
  rewrite drop_0, Z.sub_0_r.
  destruct (Z.le_gt_cases c (Z.of_nat (length filtered))) as [Hle | Hgt].
  - rewrite Z.min_l by lia. reflexivity.
  - rewrite Z.min_r by lia. rewrite Nat2Z.id.
    rewrite (take_ge filtered (length filtered)) by lia.
    rewrite (take_ge filtered (Z.to_nat c)) by lia. reflexivity.
Qed.

Lemma visibleResults_length (c : Z) (filtered : list Hit) :
  (0 <= c)%Z ->
  Z.of_nat (length (visibleResults c filtered))
  = Z.min c (Z.of_nat (length filtered)).
Proof.
  intros Hc. rewrite visibleResults_take by exact Hc.
  rewrite length_take. lia.
Qed.

Lemma canLoadMore_lt (c : Z) (filtered : list Hit) :
  canLoadMore c filtered = true <-> (c < Z.of_nat (length filtered))%Z.
Proof. unfold canLoadMore. apply Z.ltb_lt. Qed.

Lemma cursorAfter_snoc evs ev :
  cursorAfter (evs ++ [ev]) = setVisibleCount (cursorAfter evs) ev.
Proof. unfold cursorAfter. rewrite foldl_app. reflexivity. Qed.

(** The cursor is always a positive multiple of 12. *)
Lemma cursorAfter_multiple evs :
  exists k : Z, (1 <= k)%Z /\ cursorAfter evs = (12 * k)%Z.
Proof.
  induction evs as [| ev evs IH] using rev_ind.
  - exists 1%Z. split; [lia | reflexivity].
  - rewrite cursorAfter_snoc. destruct IH as (k & Hk & ->).
    destruct ev; cbn [setVisibleCount].
    + exists (k + 1)%Z. split; lia.
    + exists 1%Z. split; lia.
Qed.

(** C9. The cursor starts at 12; "Mehr laden" adds exactly 12 to it and a
    reset sets it back to 12, and nothing else changes it, so it is a
    positive multiple of 12; the visible slice holds
    min(cursor, filtered length) hits, the first ones; and more are
    available exactly when the cursor is less than the filtered length. *)
Theorem pagination_cursor (evs : list CursorEvent) (filtered : list Hit) :
  cursorAfter [] = 12%Z /\
  cursorAfter (evs ++ [LoadMore]) = (cursorAfter evs + 12)%Z /\
  cursorAfter (evs ++ [ResetCount]) = 12%Z /\
  (exists k : Z, (1 <= k)%Z /\ cursorAfter evs = (12 * k)%Z) /\
  Z.of_nat (length (visibleResults (cursorAfter evs) filtered))
  = Z.min (cursorAfter evs) (Z.of_nat (length filtered)) /\
  visibleResults (cursorAfter evs) filtered
  = take (Z.to_nat (cursorAfter evs)) filtered /\
  (canLoadMore (cursorAfter evs) filtered = true <->
   (cursorAfter evs < Z.of_nat (length filtered))%Z).
Proof.
  pose proof (cursorAfter_multiple evs) as (k & Hk & Hc).
  split; [reflexivity |].
  split; [apply cursorAfter_snoc |].
  split; [apply cursorAfter_snoc |].
  split; [exists k; split; assumption |]. split.
  { apply visibleResults_length. lia. }
  split; [apply visibleResults_take; lia | apply canLoadMore_lt].
Qed.

(** The cursor counts the presses of "Mehr laden" since the last reset. *)
Lemma cursorAfter_presses evs (n : nat) :
  cursorAfter ((evs ++ [ResetCount]) ++ replicate n LoadMore)%list
  = (12 * (1 + Z.of_nat n))%Z.
Proof.
  induction n as [| n IH].
  - rewrite app_nil_r, cursorAfter_snoc. reflexivity.
  - replace (replicate (S n) LoadMore)
      with (replicate n LoadMore ++ [LoadMore])%list
      by (change [LoadMore] with (replicate 1 LoadMore);
          rewrite <- replicate_add; f_equal; lia).
    rewrite app_assoc, cursorAfter_snoc, IH. cbn [setVisibleCount]. lia.
Qed.

Example pagination_second_page :
  let filtered := replicate 30 (priced 1 None) in
  let c := cursorAfter [LoadMore] in
  c = 24%Z /\ length (visibleResults c filtered) = 24%nat /\
  canLoadMore c filtered = true /\
  canLoadMore (cursorAfter [LoadMore; LoadMore]) filtered = false.
Proof. repeat split. Qed.

(** *** Further properties of the pipeline: dedupe *)

Lemma dedupeFrom_covers seen hs h :
  h ∈ hs -> idOf h ∉ seen ->
  exists h', h' ∈ dedupeFrom seen hs /\ idOf h' = idOf h.
Proof.
  revert seen. induction hs as [| x hs IH]; intros seen Hin Hnew.
  - inversion Hin.
  - simpl. destruct (decide (idOf x ∈ seen)) as [Hseen | Hx].
    + apply elem_of_cons in Hin as [-> | Hin]; [contradiction |].
      apply IH; assumption.
    + destruct (decide (idOf h = idOf x)) as [Heq | Hne].
      * exists x. split; [left | symmetry; exact Heq].
      * apply elem_of_cons in Hin as [-> | Hin]; [contradiction |].
        destruct (IH ({[idOf x]} ∪ seen) Hin) as (h' & Hh' & Hk).
        { intros Hu. apply elem_of_union in Hu as [Hu | Hu]; [| contradiction].
          apply elem_of_singleton in Hu. contradiction. }
        exists h'. split; [right; exact Hh' | exact Hk].
Qed.

(** X15. What dedupe returns: a sub-sequence of the results (nothing is
    added or reordered) in which no two hits have the same key, and which
    still holds a hit for every key of the results. *)
Theorem dedupedResults_representatives (results : list Hit) :
  sublist (dedupedResults results) results /\
  NoDup (idOf <$> dedupedResults results) /\
  (forall h, h ∈ results ->
     exists h', h' ∈ dedupedResults results /\ idOf h' = idOf h).
Proof.
  split; [apply dedupeFrom_sublist |].
  split; [apply dedupeFrom_NoDup |].
  intros h Hin. apply dedupeFrom_covers; [exact Hin | apply not_elem_of_empty].
Qed.

Lemma dedupeFrom_app seen l1 l2 :
  dedupeFrom seen (l1 ++ l2)%list
  = (dedupeFrom seen l1
     ++ dedupeFrom (list_to_set (idOf <$> l1) ∪ seen) l2)%list.
Proof.
  revert seen. induction l1 as [| x l1 IH]; intros seen.
  - cbn. rewrite (left_id_L ∅ (∪)). reflexivity.
  - cbn [app dedupeFrom]. rewrite fmap_cons, list_to_set_cons.
    destruct (decide (idOf x ∈ seen)) as [Hseen | Hnew].
    + rewrite IH. f_equal. f_equal. apply leibniz_equiv.
      intros k. rewrite !elem_of_union, elem_of_singleton.
      split; [tauto |]. intros [[-> | H] | H]; tauto.
    + rewrite IH. cbn [app]. f_equal. f_equal. f_equal. apply leibniz_equiv.
      intros k. rewrite !elem_of_union, elem_of_singleton. tauto.
Qed.

(** Results that arrive behind others do not change what dedupe keeps of the
    earlier ones: the deduplicated list of [l1 ++ l2] is that of [l1],
    followed by the hits of [l2] whose key is new. *)
Lemma dedupedResults_app (l1 l2 : list Hit) :
  dedupedResults (l1 ++ l2)%list
  = (dedupedResults l1 ++ dedupeFrom (list_to_set (idOf <$> l1)) l2)%list.
Proof.
  unfold dedupedResults. rewrite dedupeFrom_app, (right_id_L ∅ (∪)).
  reflexivity.
Qed.

(** *** Further properties of the pipeline: sort *)

Lemma signOf_xsub_Eq_sym (a b : xnum) :
  a <> NaN -> b <> NaN ->
  signOf (xsub a b) = Eq -> signOf (xsub b a) = Eq.
Proof.
  intros Ha Hb.
  destruct a as [x | | |], b as [y | | |]; try contradiction;
    cbn [xsub signOf]; try congruence.
  intros H. apply (proj2 (Qeq_alt (x - y) 0)) in H.
  apply (proj1 (Qeq_alt (y - x) 0)). lra.
Qed.

Lemma signOf_xsub_Eq_trans (a b c : xnum) :
  a <> NaN -> b <> NaN -> c <> NaN ->
  signOf (xsub a b) = Eq -> signOf (xsub b c) = Eq -> signOf (xsub a c) = Eq.
Proof.
  intros Ha Hb Hc.
  destruct a as [x | | |], b as [y | | |], c as [z | | |]; try contradiction;
    cbn [xsub signOf]; try congruence.
  intros H1 H2.
  apply (proj2 (Qeq_alt (x - y) 0)) in H1.
  apply (proj2 (Qeq_alt (y - z) 0)) in H2.
  apply (proj1 (Qeq_alt (x - z) 0)). lra.
Qed.

Lemma sortValue_number sortBy h : sortValue sortBy h <> NaN.
Proof.
  destruct sortBy; cbn [sortValue];
    first [apply scoreOr0_number | apply priceOr_number; discriminate].
Qed.

(** Each comparator is the difference of the sort values, taken in the
    direction of the key. *)
Lemma comparatorOf_sortValue sortBy a b :
  sortBy <> relevance ->
  comparatorOf sortBy a b
  = if descending sortBy
    then xsub (sortValue sortBy b) (sortValue sortBy a)
    else xsub (sortValue sortBy a) (sortValue sortBy b).
Proof. destruct sortBy; [contradiction | reflexivity ..]. Qed.

(** The order of the sort values that a comparator induces. *)
Lemma comparator_inOrder sortBy a b :
  sortBy <> relevance ->
  inOrder (comparatorOf sortBy) a b <->
  (if descending sortBy
   then xleb (sortValue sortBy b) (sortValue sortBy a)
   else xleb (sortValue sortBy a) (sortValue sortBy b)) = true.
Proof.
  intros Hk. unfold inOrder. rewrite comparatorOf_sortValue by exact Hk.
  destruct (descending sortBy); apply signOf_xsub; apply sortValue_number.
Qed.

Lemma comparator_trans sortBy a b c :
  sortBy <> relevance ->
  inOrder (comparatorOf sortBy) a b -> inOrder (comparatorOf sortBy) b c ->
  inOrder (comparatorOf sortBy) a c.
Proof.
  intros Hk. rewrite !(comparator_inOrder sortBy) by exact Hk.
  destruct (descending sortBy); intros H1 H2; eauto using xleb_trans.
Qed.

Lemma comparator_total sortBy a b :
  sortBy <> relevance ->
  signOf (comparatorOf sortBy a b) = Gt -> inOrder (comparatorOf sortBy) b a.
Proof.
  intros Hk Hgt.
  assert (~ inOrder (comparatorOf sortBy) a b) as Hn
    by (unfold inOrder; intros H; apply H, Hgt).
  rewrite (comparator_inOrder sortBy) in Hn |- * by exact Hk.
  destruct (descending sortBy);
    match goal with
    | |- xleb ?x ?y = true =>
        destruct (xleb_total x y) as [H | H];
          [apply sortValue_number | apply sortValue_number
          | exact H | contradiction]
    end.
Qed.

(** Two hits that compare equal to a third do not compare greater than each
    other. *)
Lemma comparator_equal_rank sortBy z x y :
  sortBy <> relevance ->
  signOf (comparatorOf sortBy z x) = Eq ->
  signOf (comparatorOf sortBy z y) = Eq ->
  signOf (comparatorOf sortBy x y) = Eq.
Proof.
  intros Hk. rewrite !comparatorOf_sortValue by exact Hk.
  pose proof (sortValue_number sortBy x) as Hx.
  pose proof (sortValue_number sortBy y) as Hy.
  pose proof (sortValue_number sortBy z) as Hz.
  destruct (descending sortBy); intros H1 H2.
  - apply (signOf_xsub_Eq_trans _ (sortValue sortBy z)); try assumption.
    apply signOf_xsub_Eq_sym; assumption.
  - apply (signOf_xsub_Eq_trans _ (sortValue sortBy z)); try assumption.
    apply signOf_xsub_Eq_sym; assumption.
Qed.

Lemma sortedResults_sorted sortBy hs :
  sortBy <> relevance ->
  StronglySorted (inOrder (comparatorOf sortBy)) (sortedResults sortBy hs).
Proof.
  intros Hk. rewrite sortedResults_Array_sort by exact Hk.
  apply Array_sort_sorted.
  - intros a b c. apply comparator_trans, Hk.
  - intros a b. apply comparator_total, Hk.
Qed.

Lemma sortedResults_perm sortBy (hs : list Hit) :
  sortedResults sortBy hs ≡ₚ hs.
Proof.
  destruct sortBy; cbn [sortedResults]; [reflexivity | ..];
    apply Array_sort_perm.
Qed.

(** X16. Sorting neither loses nor duplicates a hit: under every sort key
    the sorted sequence is a permutation of the input, so every hit occurs
    in it as often as in the input. *)
Theorem sortedResults_permutation sortBy (hs : list Hit) :
  (sortedResults sortBy hs ≡ₚ hs) /\
  length (sortedResults sortBy hs) = length hs /\
  (forall h, h ∈ sortedResults sortBy hs <-> h ∈ hs).
Proof.
  pose proof (sortedResults_perm sortBy hs) as Hp.
  split; [exact Hp |]. split; [rewrite Hp; reflexivity |].
  intros h. rewrite Hp. reflexivity.
Qed.

Lemma xleb_numberOf (p q : JsonNumber) :
  xleb (numberOf p) (numberOf q) = true -> numLe p q.
Proof.
  destruct p as [x | |], q as [y | |]; cbn; try congruence; try (intros _; exact I).
  destruct (Qle_bool x y) eqn:E; [| discriminate].
  intros _. apply Qle_bool_iff, E.
Qed.

(** X17. Among the hits that have a price, [priceAsc] lists cheaper hits
    first and [priceDesc] lists dearer hits first; the prices are compared
    as numbers, the infinities included. *)
Theorem prices_in_order sortBy (hs : list Hit) i j a b (p q : JsonNumber) :
  sortBy = priceAsc \/ sortBy = priceDesc ->
  sortedResults sortBy hs !! i = Some a ->
  sortedResults sortBy hs !! j = Some b ->
  (i < j)%nat ->
  price a = Some p -> price b = Some q ->
  (sortBy = priceAsc -> numLe p q) /\ (sortBy = priceDesc -> numLe q p).
Proof.
  intros Hk Hi Hj Hlt Ha Hb.
  assert (sortBy <> relevance) as Hne by (destruct Hk as [-> | ->]; discriminate).
  pose proof (StronglySorted_lookup _ _ _ _ _ _
                (sortedResults_sorted sortBy hs Hne) Hi Hj Hlt) as Hord.
  apply (comparator_inOrder sortBy a b Hne) in Hord.
  destruct Hk as [-> | ->]; cbn [descending sortValue] in Hord;
    unfold priceOr in Hord; rewrite Ha, Hb in Hord;
    (split; intros Hs; [| try discriminate Hs]; try discriminate Hs);
    apply xleb_numberOf, Hord.
Qed.

Lemma prices_in_order_witness :
  let hs := [priced 1 (Some 30%Q); priced 2 None; priced 3 (Some 10%Q)] in
  ((priceAsc = priceAsc \/ priceAsc = priceDesc) /\
   sortedResults priceAsc hs !! 0%nat = Some (priced 3 (Some 10%Q)) /\
   sortedResults priceAsc hs !! 1%nat = Some (priced 1 (Some 30%Q)) /\
   (0 < 1)%nat /\
   price (priced 3 (Some 10%Q)) = Some (Finite 10) /\
   price (priced 1 (Some 30%Q)) = Some (Finite 30)) /\
  (priceAsc = priceAsc -> (10 <= 30)%Q) /\ (priceAsc = priceDesc -> (30 <= 10)%Q).
Proof.
  intros hs. split.
  - repeat split; [left; reflexivity | lia].
  - apply (prices_in_order priceAsc hs 0 1
             (priced 3 (Some 10%Q)) (priced 1 (Some 30%Q))
             (Finite 10) (Finite 30));
      [left; reflexivity | reflexivity | reflexivity | lia
      | reflexivity | reflexivity].
Defined.

(** X18. [scoreDesc] lists higher scores first and [scoreAsc] lower scores
    first, a missing score counting as 0. *)
Theorem scores_in_order sortBy (hs : list Hit) i j a b :
  sortBy = scoreDesc \/ sortBy = scoreAsc ->
  sortedResults sortBy hs !! i = Some a ->
  sortedResults sortBy hs !! j = Some b ->
  (i < j)%nat ->
  (sortBy = scoreDesc -> (scoreValue b <= scoreValue a)%Q) /\
  (sortBy = scoreAsc -> (scoreValue a <= scoreValue b)%Q).
Proof.
  intros Hk Hi Hj Hlt.
  assert (sortBy <> relevance) as Hne by (destruct Hk as [-> | ->]; discriminate).
  pose proof (StronglySorted_lookup _ _ _ _ _ _
                (sortedResults_sorted sortBy hs Hne) Hi Hj Hlt) as Hord.
  apply (comparator_inOrder sortBy a b Hne) in Hord.
  assert (forall h, scoreOr0 h = Fin (scoreValue h)) as Hs
    by (intros h; unfold scoreOr0, scoreValue; destruct (score h); reflexivity).
  destruct Hk as [-> | ->]; cbn [descending sortValue] in Hord;
    rewrite !Hs in Hord; cbn [xleb] in Hord;
    (split; intros Hs'; [| try discriminate Hs']; try discriminate Hs');
    match type of Hord with
    | (if Qle_bool ?x ?y then _ else _) = _ =>
        destruct (Qle_bool x y) eqn:E; [| discriminate Hord];
        apply Qle_bool_iff in E; exact E
    end.
Qed.

Lemma scores_in_order_witness :
  let hs := [scored 1 None; scored 2 (Some (9 # 10)); scored 3 (Some (-1 # 2))] in
  ((scoreDesc = scoreDesc \/ scoreDesc = scoreAsc) /\
   sortedResults scoreDesc hs !! 1%nat = Some (scored 1 None) /\
   sortedResults scoreDesc hs !! 2%nat = Some (scored 3 (Some (-1 # 2))) /\
   (1 < 2)%nat) /\
  (scoreDesc = scoreDesc ->
   (scoreValue (scored 3 (Some (-1 # 2))) <= scoreValue (scored 1 None))%Q) /\
  (scoreDesc = scoreAsc ->
   (scoreValue (scored 1 None) <= scoreValue (scored 3 (Some (-1 # 2))))%Q).
Proof.
  intros hs. split.
  - repeat split; [left; reflexivity | lia].
  - apply (scores_in_order scoreDesc hs 1 2);
      [left; reflexivity | reflexivity | reflexivity | lia].
Defined.

Section Stability.
Context {A : Type}.
Variable comparefn : A -> A -> xnum.
Hypothesis equal_rank :
  forall z x y, signOf (comparefn z x) = Eq -> signOf (comparefn z y) = Eq ->
                signOf (comparefn x y) = Eq.

Lemma insertSorted_same_rank z x l :
  filter (fun h => ranksEqual comparefn z h = true) (insertSorted comparefn x l)
  = filter (fun h => ranksEqual comparefn z h = true) (x :: l).
Proof.
  induction l as [| y l IH]; [reflexivity |].
  cbn [insertSorted].
  destruct (signOf (comparefn x y)) eqn:E; try reflexivity.
  rewrite filter_cons, IH, !filter_cons.
  destruct (decide (ranksEqual comparefn z y = true)) as [Hy | Hy];
    destruct (decide (ranksEqual comparefn z x = true)) as [Hx | Hx];
    try reflexivity.
  exfalso. unfold ranksEqual in Hx, Hy.
  destruct (signOf (comparefn z x)) eqn:Ex; try discriminate.
  destruct (signOf (comparefn z y)) eqn:Ey; try discriminate.
  rewrite (equal_rank z x y Ex Ey) in E. discriminate.
Qed.

Lemma Array_sort_same_rank z l :
  filter (fun h => ranksEqual comparefn z h = true) (Array_sort comparefn l)
  = filter (fun h => ranksEqual comparefn z h = true) l.
Proof.
  induction l as [| x l IH]; [reflexivity |].
  cbn [Array_sort foldr]. rewrite insertSorted_same_rank.
  rewrite !filter_cons. fold (Array_sort comparefn l). rewrite IH. reflexivity.
Qed.
End Stability.

(** X19. The sort is stable: under every sort key, the hits that compare
    equal to a given hit stand in the sorted sequence in the order they had
    in the input. *)
Theorem sortedResults_stable sortBy (hs : list Hit) (z : Hit) :
  filter (fun h => ranksEqual (comparatorOf sortBy) z h = true)
    (sortedResults sortBy hs)
  = filter (fun h => ranksEqual (comparatorOf sortBy) z h = true) hs.
Proof.
  destruct (decide (sortBy = relevance)) as [-> | Hk]; [reflexivity |].
  rewrite sortedResults_Array_sort by exact Hk.
  apply Array_sort_same_rank.
  intros z' x y. apply comparator_equal_rank, Hk.
Qed.

(** *** Further properties of the pipeline: filter and badges *)

Lemma toLowerCase_empty s : toLowerCase s = "" <-> s = "".
Proof. destruct s; cbn; split; congruence. Qed.

Lemma includes_empty_haystack q : q <> "" -> includes "" q = false.
Proof. destruct q; [contradiction | reflexivity]. Qed.

Lemma filteredResults_none parseFloat st (sorted : list Hit) :
  (forall r, passes parseFloat st r = false) ->
  filteredResults parseFloat st sorted = [].
Proof.
  intros Hno. unfold filteredResults.
  induction sorted as [| r sorted IH]; [reflexivity |].
  rewrite filter_cons_False by (rewrite Hno; discriminate). exact IH.
Qed.

(** X20. A price bound that is not a number hides every hit: when the text
    of the minimum or of the maximum is not empty and [parseFloat] gives
    [NaN] for it, the filtered sequence is empty. *)
Theorem non_numeric_bound_hides_all parseFloat st (sorted : list Hit) :
  (priceMin st <> "" /\ parseFloat (priceMin st) = NaN) \/
  (priceMax st <> "" /\ parseFloat (priceMax st) = NaN) ->
  filteredResults parseFloat st sorted = [].
Proof.
  intros Hnan. apply filteredResults_none. intros r. unfold passes.
  destruct Hnan as [[Hne Hp] | [Hne Hp]].
  - destruct (decide (priceMin st = "")); [contradiction |].
    rewrite Hp. cbn [xleb]. rewrite andb_false_r. reflexivity.
  - destruct (decide (priceMax st = "")); [contradiction |].
    rewrite Hp.
    assert (xleb (priceOr NegInf r) NaN = false) as ->
      by (destruct (priceOr NegInf r); reflexivity).
    rewrite andb_false_r. reflexivity.
Qed.

Lemma non_numeric_bound_hides_all_witness :
  let parseFloat := fun s : string => if decide (s = "abc") then NaN else Fin 0 in
  let st := mkFilterState defaultLabelFilter "abc" "" "" in
  ((priceMin st <> "" /\ parseFloat (priceMin st) = NaN) \/
   (priceMax st <> "" /\ parseFloat (priceMax st) = NaN)) /\
  filteredResults parseFloat st [priced 1 None; priced 2 (Some 20%Q)] = [].
Proof.
  intros parseFloat st.
  assert (priceMin st <> "" /\ parseFloat (priceMin st) = NaN) as H
    by (split; [discriminate | reflexivity]).
  split; [left; exact H |].
  apply (non_numeric_bound_hides_all parseFloat st). left. exact H.
Defined.

(** X21. The price bounds never exclude a hit without a price: whatever
    numbers the minimum and the maximum are, such a hit passes the filter
    exactly when it passes with both bounds cleared. *)
Theorem priceless_ignores_price_bounds parseFloat st (r : Hit) :
  price r = None ->
  parseFloat (priceMin st) <> NaN -> parseFloat (priceMax st) <> NaN ->
  passes parseFloat st r = passes parseFloat (clearPrice st) r.
Proof.
  intros Hp Hmin Hmax. unfold passes, clearPrice.
  cbn [priceMin priceMax labelFilter merchantSearch].
  unfold priceOr. rewrite Hp.
  destruct (decide (priceMin st = "")), (decide (priceMax st = ""));
    destruct (decide ("" = "")); try contradiction;
    try (destruct (parseFloat (priceMin st)); try contradiction);
    try (destruct (parseFloat (priceMax st)); try contradiction);
    reflexivity.
Qed.

Lemma priceless_ignores_price_bounds_witness :
  let parseFloat := fun s : string => if decide (s = "5") then Fin 5 else Fin 1 in
  let st := mkFilterState defaultLabelFilter "1" "5" "" in
  (price (priced 1 None) = None /\
   parseFloat (priceMin st) <> NaN /\ parseFloat (priceMax st) <> NaN) /\
  passes parseFloat st (priced 1 None)
  = passes parseFloat (clearPrice st) (priced 1 None).
Proof.
  intros parseFloat st. split; [repeat split; discriminate |].
  apply (priceless_ignores_price_bounds parseFloat st); [reflexivity | ..];
    discriminate.
Defined.

(** X22. A hit without a merchant never passes a merchant query that is not
    blank, that is, one of which [trim] leaves something; a query of
    white space alone, of ASCII or not, is blank. *)
Theorem no_merchant_fails_query parseFloat st (r : Hit) :
  merchant r = None -> trim (merchantSearch st) <> "" ->
  passes parseFloat st r = false.
Proof.
  intros Hm Hq. unfold passes. rewrite Hm. cbn [orEmpty toLowerCase].
  destruct (decide (toLowerCase (trim (merchantSearch st)) = "")) as [E | E].
  - apply (proj1 (toLowerCase_empty _)) in E. contradiction.
  - rewrite (includes_empty_haystack _ E). apply andb_false_r.
Qed.

Lemma no_merchant_fails_query_witness :
  let st := mkFilterState defaultLabelFilter "" "" " Zalando " in
  (merchant (priced 1 None) = None /\ trim (merchantSearch st) <> "") /\
  passes (fun _ => NaN) st (priced 1 None) = false.
Proof.
  intros st. split; [split; [reflexivity | discriminate] |].
  apply (no_merchant_fails_query (fun _ => NaN) st);
    [reflexivity | discriminate].
Defined.

(** A query of one no-break space is blank: the hit without a merchant
    passes it. *)
Example no_merchant_passes_nbsp_query :
  let st := mkFilterState defaultLabelFilter "" "" nbsp in
  trim (merchantSearch st) = "" /\
  passes (fun _ => NaN) st (priced 1 None) = true.
Proof. split; reflexivity. Qed.

(** No-break spaces around a name are dropped like other white space. *)
Example no_merchant_fails_padded_query :
  let st := mkFilterState defaultLabelFilter "" ""
              (nbsp +:+ "Zalando" +:+ ideographicSpace) in
  trim (merchantSearch st) = "Zalando" /\
  passes (fun _ => NaN) st (priced 1 None) = false.
Proof. split; reflexivity. Qed.

Lemma flagOf_setFlag f k checked b :
  flagOf (setFlag f k checked) b = if decide (b = k) then checked else flagOf f b.
Proof. destruct k, b; reflexivity. Qed.

(** X23. Unchecking a bucket removes the hits of that bucket from the
    filtered sequence and nothing else. *)
Theorem uncheck_bucket_removes_its_hits parseFloat st (k : LabelBucket)
    (sorted : list Hit) :
  filteredResults parseFloat (toggleBucket st k false) sorted
  = filter (fun r => normalizeBucket (label r) <> k)
      (filteredResults parseFloat st sorted).
Proof.
  unfold filteredResults. rewrite list_filter_filter.
  apply list_filter_iff. intros r. unfold passes, toggleBucket.
  cbn [labelFilter priceMin priceMax merchantSearch].
  rewrite flagOf_setFlag.
  destruct (decide (normalizeBucket (label r) = k)) as [E | E].
  - cbn. split; [discriminate | intros [Hne _]; contradiction].
  - split; [intros H; split; [exact E | exact H] | intros [_ H]; exact H].
Qed.

Lemma allLabelsSelected_default f :
  allLabelsSelected f = true <-> f = defaultLabelFilter.
Proof.
  destruct f as [[] [] []]; unfold defaultLabelFilter; cbn; split;
    first [reflexivity | discriminate].
Qed.

(** No badge is shown exactly in the states that filter nothing. *)
Lemma anyActiveBadges_false st :
  anyActiveBadges st = false <->
  labelFilter st = defaultLabelFilter /\ priceMin st = "" /\
  priceMax st = "" /\ trim (merchantSearch st) = "".
Proof.
  unfold anyActiveBadges, badgeOr, activeBadgeLabels, activeBadgePrice,
    activeBadgeMerchant.
  rewrite <- allLabelsSelected_default.
  destruct (allLabelsSelected (labelFilter st)); cbn [negb truthyBadge].
  - destruct (bool_decide (priceMin st = "")) eqn:E1;
      destruct (bool_decide (priceMax st = "")) eqn:E2;
      destruct (bool_decide (trim (merchantSearch st) = "")) eqn:E3;
      cbn;
      try apply bool_decide_eq_true in E1; try apply bool_decide_eq_false in E1;
      try apply bool_decide_eq_true in E2; try apply bool_decide_eq_false in E2;
      try apply bool_decide_eq_true in E3; try apply bool_decide_eq_false in E3;
      split; try discriminate; try tauto.
  - cbn. split; [discriminate | intros [H _]; discriminate].
Qed.

Lemma passes_unfiltered parseFloat st r :
  labelFilter st = defaultLabelFilter ->
  priceMin st = "" -> priceMax st = "" -> trim (merchantSearch st) = "" ->
  passes parseFloat st r = true.
Proof.
  intros Hl Hmin Hmax Hm. unfold passes.
  rewrite Hl, Hmin, Hmax, Hm, flagOf_default. reflexivity.
Qed.

(** X24. While no filter badge is shown nothing is filtered: the filtered
    sequence is the sorted sequence.  "Clear all" always leads to such a
    state. *)
Theorem no_badge_no_filter parseFloat st (sorted : list Hit) :
  (anyActiveBadges st = false ->
   filteredResults parseFloat st sorted = sorted) /\
  anyActiveBadges (clearAllBadges st) = false /\
  filteredResults parseFloat (clearAllBadges st) sorted = sorted.
Proof.
  assert (forall st', anyActiveBadges st' = false ->
            filteredResults parseFloat st' sorted = sorted) as Hid.
  { intros st' Hb. apply anyActiveBadges_false in Hb as (Hl & Hmin & Hmax & Hm).
    unfold filteredResults.
    induction sorted as [| r sorted IH]; [reflexivity |].
    rewrite filter_cons_True by (apply passes_unfiltered; assumption).
    rewrite IH. reflexivity. }
  assert (anyActiveBadges (clearAllBadges st) = false) as Hclear
    by (apply anyActiveBadges_false; repeat split; reflexivity).
  split; [apply Hid |]. split; [exact Hclear | apply Hid, Hclear].
Qed.

Lemma no_badge_no_filter_witness :
  let st := mkFilterState defaultLabelFilter "" "" "   " in
  let sorted := [priced 1 None; priced 2 (Some 20%Q)] in
  anyActiveBadges st = false /\
  filteredResults (fun _ => NaN) st sorted = sorted.
Proof.
  intros st sorted. split; [reflexivity |].
  apply (proj1 (no_badge_no_filter (fun _ => NaN) st sorted)). reflexivity.
Defined.

Example badges_shown :
  let st := mkFilterState (mkLabelFilter true false true) "" "50" " Zalando " in
  activeBadgeLabels st = Some "Ähnlichkeit: Exact, Alternative" /\
  activeBadgePrice st = Some "Preis: 0–50" /\
  activeBadgeMerchant st = Some "Händler: Zalando" /\
  anyActiveBadges st = true.
Proof. repeat split. Qed.

(** *** Further properties of the pipeline: pagination and the whole *)

(** X25. "Mehr laden" keeps what is shown and adds between 1 and 12 hits
    behind it; and when it is not offered, every filtered hit is shown. *)
Theorem load_more_extends (c : Z) (filtered : list Hit) :
  (0 <= c)%Z ->
  (canLoadMore c filtered = true ->
   exists more,
     visibleResults (setVisibleCount c LoadMore) filtered
     = (visibleResults c filtered ++ more)%list /\
     (1 <= length more <= 12)%nat) /\
  (canLoadMore c filtered = false -> visibleResults c filtered = filtered).
Proof.
  intros Hc. split.
  - intros Hmore. apply canLoadMore_lt in Hmore. cbn [setVisibleCount].
    rewrite !visibleResults_take by lia.
    exists (take 12 (drop (Z.to_nat c) filtered)). split.
    + rewrite take_take_drop. f_equal. lia.
    + rewrite length_take, length_drop. lia.
  - intros Hno. rewrite visibleResults_take by exact Hc.
    apply take_ge.
    assert (~ (c < Z.of_nat (length filtered))%Z) as Hn
      by (rewrite <- canLoadMore_lt, Hno; discriminate).
    lia.
Qed.

Lemma load_more_extends_witness :
  let filtered := replicate 30 (priced 1 None) in
  ((0 <= 24)%Z /\ canLoadMore 24 filtered = true) /\
  exists more,
    visibleResults (setVisibleCount 24 LoadMore) filtered
    = (visibleResults 24 filtered ++ more)%list /\
    (1 <= length more <= 12)%nat.
Proof.
  intros filtered. split; [split; [lia | reflexivity] |].
  apply (proj1 (load_more_extends 24 filtered ltac:(lia))). reflexivity.
Defined.

Lemma slice_sublist {A : Type} (start end_ : Z) (l : list A) :
  sublist (slice start end_ l) l.
Proof.
  unfold slice. etransitivity; [apply sublist_take | apply sublist_drop].
Qed.

(** X26. What the page lists comes from the results and holds no key
    twice: for every sort key, filter state and cursor, the listed hits are
    hits of the search response, and no two of them have the same key. *)
Theorem shownResults_sound parseFloat (results : list Hit) sortBy st (c : Z) :
  (forall h, h ∈ shownResults parseFloat results sortBy st c -> h ∈ results) /\
  NoDup (idOf <$> shownResults parseFloat results sortBy st c).
Proof.
  unfold shownResults, visibleResults.
  set (sorted := sortedResults sortBy (dedupedResults results)).
  assert (sublist (slice 0 c (filteredResults parseFloat st sorted)) sorted) as Hsub.
  { etransitivity; [apply slice_sublist |]. apply sublist_filter. }
  split.
  - intros h Hin.
    apply (elem_of_sublist _ _ _ Hin) in Hsub.
    unfold sorted in Hsub. rewrite sortedResults_perm in Hsub.
    apply dedupeFrom_elem in Hsub as [Hres _]. exact Hres.
  - apply (sublist_NoDup _ (idOf <$> sorted)).
    + unfold sorted. rewrite sortedResults_perm. apply dedupeFrom_NoDup.
    + apply fmap_sublist, Hsub.
Qed.

End ResultPipelineFacts.

Module PageFacts.
Import DataModel CoordinateMapper SearchClient ResultPipeline Page.
Import CoordinateMapperFacts SearchClientFacts ResultPipelineFacts.
Local Open Scope string_scope.

Lemma listed_no_results parseFloat st : results st = [] -> listed parseFloat st = [].
Proof.
  intros Hr. unfold listed, shownResults. rewrite Hr.
  assert (sortedResults (sortBy st) (dedupedResults []) = []) as ->
    by (destruct (sortBy st); reflexivity).
  unfold filteredResults, visibleResults, slice.
  rewrite filter_nil, drop_nil, take_nil. reflexivity.
Qed.

(** Every request of a run carries the payload as its [file] field. *)
Lemma run_sends_payload env fetch blob q :
  q ∈ contacted (runSearchByUpload env fetch blob) ->
  form_file (req_body q) = blob.
Proof.
  intros Hq. apply list_elem_of_lookup in Hq as [i Hi].
  destruct (run_cases env fetch blob) as [Hrun | (base & _ & _ & Hrun)];
    rewrite Hrun in Hi; [discriminate Hi |].
  apply contacted_candidate in Hi as (p & _ & ->). reflexivity.
Qed.

(** "Ausschnitt ändern" keeps the file and the stored rectangle and clears
    the selection. *)
Lemma changeSelection_keeps st :
  file (changeSelection st) = file st /\
  cropPx (changeSelection st) = cropPx st /\
  crop (changeSelection st) = None.
Proof.
  destruct st as [fi ou ns cr mo lo er re so vc fl cpu lcb cpx to ur].
  unfold changeSelection, ensureImageUrl. cbn.
  destruct ou; [repeat split |]. destruct fi; repeat split.
Qed.

(** The load of the image keeps the file, and fills an empty selection from
    the stored rectangle, or with the default selection. *)
Lemma imageLoaded_keeps img st :
  file (imageLoaded img st) = file st /\
  (crop st = None ->
   crop (imageLoaded img st)
   = Some match cropPx st with
          | Some px => pixelToPercentCropWithSize px (naturalWidth img)
                         (naturalHeight img)
          | None => defaultCrop
          end).
Proof.
  destruct st as [fi ou ns cr mo lo er re so vc fl cpu lcb cpx to ur].
  unfold imageLoaded. cbn.
  destruct cr, cpx, ns; cbn; split; try reflexivity; intros; congruence.
Qed.

Section HandlerFacts.
Variable canvas : CanvasEnv.
Variable nullBlobMessage : string.
Variable env : ProcessEnv.
Variable fetch : Request -> FetchOutcome.

Abbreviation confirm := (confirmAndSearch canvas nullBlobMessage env fetch).
Abbreviation resubmit := (resubmitWithSameCrop env fetch).

(** The pixel rectangle is stored before anything can fail. *)
Lemma confirm_cropPx img st f c :
  file st = Some f -> crop st = Some c ->
  cropPx (after (confirm (Some img) st)) = Some (toPixelCrop c img) /\
  file (after (confirm (Some img) st)) = Some f.
Proof.
  intros Hf Hc. unfold confirmAndSearch. rewrite Hf, Hc.
  destruct (getCroppedBlob canvas img (toPixelCrop c img)) as [| [blob |]];
    cbn -[toPixelCrop runSearchByUpload]; try (split; [reflexivity | exact Hf]).
  destruct (outcome (runSearchByUpload env fetch blob)) as [data | e];
    [destruct (hitsOf data) |];
    cbn -[toPixelCrop runSearchByUpload]; split; first [reflexivity | exact Hf].
Qed.



(** X29. Reopening the editor keeps the selection: after [confirmAndSearch]
    has resolved a selection to a pixel rectangle, "Ausschnitt ändern", the
    load of the same image and a second [confirmAndSearch] resolve to the
    same rectangle. *)
Theorem reopen_keeps_rectangle img st f c :
  file st = Some f -> crop st = Some c ->
  (0 < naturalWidth img)%Q -> (0 < naturalHeight img)%Q ->
  let st1 := after (confirm (Some img) st) in
  let st2 := imageLoaded img (changeSelection st1) in
  cropPx st1 = Some (toPixelCrop c img) /\
  crop st2 = Some (pixelToPercentCropWithSize (toPixelCrop c img)
                     (naturalWidth img) (naturalHeight img)) /\
  cropPx (after (confirm (Some img) st2)) = cropPx st1.
Proof.
  intros Hf Hc HW HH st1 st2.
  destruct (confirm_cropPx img st f c Hf Hc) as [Hpx Hfile]. fold st1 in Hpx, Hfile.
  destruct (changeSelection_keeps st1) as (Hf1 & Hpx1 & Hc1).
  destruct (imageLoaded_keeps img (changeSelection st1)) as (Hf2 & Hc2).
  fold st2 in Hf2, Hc2.
  assert (crop st2 = Some (pixelToPercentCropWithSize (toPixelCrop c img)
                             (naturalWidth img) (naturalHeight img))) as Hcrop
    by (rewrite (Hc2 Hc1), Hpx1, Hpx; reflexivity).
  assert (file st2 = Some f) as Hfile2 by (rewrite Hf2, Hf1; exact Hfile).
  split; [exact Hpx |]. split; [exact Hcrop |].
  destruct (confirm_cropPx img st2 f _ Hfile2 Hcrop) as [Hpx2 _].
  rewrite Hpx2, Hpx. f_equal.
  destruct (toPixelCrop_wholeRect c img) as (x & y & w & h & -> & Hx & Hy & Hw & Hh).
  apply wholeRect_roundtrip; assumption.
Qed.

End HandlerFacts.

Lemma reopen_keeps_rectangle_witness :
  let confirm := confirmAndSearch sampleCanvas "TypeError" sampleEnv
                   (backend "http://api" (respond 503 "" "" None) Rejected) in
  let st := setCrop (Some (pctCrop (1 # 3) 7 (200 # 3) 50)) samplePage in
  let st1 := after (confirm (Some sampleImg) st) in
  let st2 := imageLoaded sampleImg (changeSelection st1) in
  (file st = Some sampleFile /\
   crop st = Some (pctCrop (1 # 3) 7 (200 # 3) 50) /\
   (0 < naturalWidth sampleImg)%Q /\ (0 < naturalHeight sampleImg)%Q) /\
  cropPx st1 = Some (wholeRect 3 56 667 400) /\
  cropPx (after (confirm (Some sampleImg) st2)) = cropPx st1.
Proof.
  intros confirm st st1 st2. split; [repeat split |].
  destruct (reopen_keeps_rectangle sampleCanvas "TypeError" sampleEnv
              (backend "http://api" (respond 503 "" "" None) Rejected)
              sampleImg st sampleFile (pctCrop (1 # 3) 7 (200 # 3) 50)
              eq_refl eq_refl eq_refl eq_refl) as (H1 & _ & H3).
  split; [exact H1 | exact H3].
Defined.



(** X30. Choosing a file: a file that is not an image changes nothing but
    the toast; an image starts a clean session, with no results listed, no
    error, no filter badge, the cursor at 12, sort by relevance, no
    selection and no stored crop, the editor open, and the object URLs of
    the previous session revoked. *)
Theorem handleFiles_new_session parseFloat (f : File) (rest : list File)
    (st : PageState) :
  (startsWith (file_type f) "image/" = false ->
   handleFiles (f :: rest) st
   = setToast (Some (mkToast "Bitte ein Bild auswählen." ToastErr)) st) /\
  (startsWith (file_type f) "image/" = true ->
   let st' := handleFiles (f :: rest) st in
   file st' = Some f /\
   results st' = [] /\ listed parseFloat st' = [] /\ error st' = None /\
   anyActiveBadges (filters st') = false /\
   visibleCount st' = 12%Z /\ sortBy st' = relevance /\
   crop st' = None /\ cropPx st' = None /\ lastCropBlob st' = None /\
   modalOpen st' = true /\
   originalUrl st' = Some (nextUrl (urls st)) /\
   (forall u, originalUrl st = Some u \/ cropPreviewUrl st = Some u ->
              u ∈ revoked (urls st'))).
Proof.
  split; intros Himg; unfold handleFiles; cbn [head]; rewrite Himg; cbn [negb].
  - reflexivity.
  - cbn -[listed anyActiveBadges].
    repeat split; try reflexivity.
    + destruct (originalUrl st), (cropPreviewUrl st); reflexivity.
    + intros u [Hu | Hu]; rewrite Hu;
        [destruct (cropPreviewUrl st) | destruct (originalUrl st)]; cbn;
        rewrite ?elem_of_cons; auto.
Qed.

Lemma handleFiles_new_session_witness :
  let st := after (confirmAndSearch sampleCanvas "TypeError" sampleEnv
                     (backend "http://api" (respond 200 "OK" "..."
                          (Some (mkSearchResponse (Some [sampleHit])))) Rejected)
                     (Some sampleImg) samplePage) in
  let st' := handleFiles [mkFile "image/png" "next"] st in
  (results st = [sampleHit] /\ cropPreviewUrl st = Some 1%nat) /\
  results st' = [] /\ lastCropBlob st' = None /\
  originalUrl st' = Some 2%nat /\ revoked (urls st') = [1%nat; 0%nat].
Proof.
  intros st st'. split; [split; reflexivity |].
  destruct (proj2 (handleFiles_new_session (fun _ => NaN)
                     (mkFile "image/png" "next") [] st) eq_refl)
    as (_ & Hr & _ & _ & _ & _ & _ & _ & _ & Hl & _ & Hu & _).
  split; [exact Hr | split; [exact Hl | split; [exact Hu | reflexivity]]].
Defined.

End PageFacts.
